(** * fix-field-names.py: camelCase to snake_case field renaming

    A shallow embedding of [src/fix-field-names.py] and the proofs of the
    properties its specification states.

    Python [str] values are lists of Unicode code points.  The regular
    expressions of the script use three constructs only: literal characters,
    the escaped dot and the word boundary [\b]; the embedding parses exactly
    that fragment and runs it with the scanning discipline of [re.sub] and
    [re.findall] (leftmost match, resume after the match). *)

From Stdlib Require Import String Ascii Decimal DecimalString.
From Stdlib Require Import NArith Arith Bool Lia List.
Import ListNotations.

Local Open Scope list_scope.

(** ** Text *)

Definition char := N.
Definition text := list char.

Definition codes (s : string) : text :=
  map N_of_ascii (list_ascii_of_string s).

Fixpoint text_eqb (a b : text) : bool :=
  match a, b with
  | [], [] => true
  | x :: a', y :: b' => N.eqb x y && text_eqb a' b'
  | _, _ => false
  end.

(** The characters of ASCII. *)
Definition is_ascii (c : char) : bool := (c <? 128)%N.

(** ** Regular expressions: the fragment the script uses *)

Inductive atom : Type :=
| Lit (c : char)      (* a character matching itself *)
| WordB.              (* \b *)

Definition regex := list atom.

(** [re.compile] on the fragment: [\b] is the word boundary, [\.] a literal
    dot, any other character outside the metacharacters stands for itself. *)
Definition is_meta (c : char) : bool :=
  existsb (N.eqb c) (codes ".^$*+?{}[]|()\").

Fixpoint compile (p : text) : option regex :=
  match p with
  | [] => Some []
  | 92%N :: 98%N :: p' => option_map (cons WordB) (compile p')
  | 92%N :: 46%N :: p' => option_map (cons (Lit 46%N)) (compile p')
  | c :: p' =>
      if is_meta c then None else option_map (cons (Lit c)) (compile p')
  end.

Section Engine.

(** [str.isalnum] of the Unicode database on the code points above ASCII. *)
Variable uni_alnum : char -> bool.

Definition ascii_word (c : char) : bool :=
  ((48 <=? c) && (c <=? 57) || (65 <=? c) && (c <=? 90) ||
   (c =? 95) || (97 <=? c) && (c <=? 122))%N.

(** [\w] of a [str] pattern. *)
Definition is_word (c : char) : bool :=
  if (c <? 128)%N then ascii_word c else uni_alnum c.

(** The text under the scan is a window of a larger text: [pw] tells whether
    the character before the window is a word character, [nw] whether the one
    after it is.  A whole string has neither, both are [false]. *)
Definition head_word (s : text) (nw : bool) : bool :=
  match s with
  | [] => nw
  | c :: _ => is_word c
  end.

Definition at_boundary (pw : bool) (s : text) (nw : bool) : bool :=
  xorb pw (head_word s nw).

(** Match the regex at the head of [s]; the result is the number of
    characters consumed. *)
Fixpoint match_here (r : regex) (pw : bool) (s : text) (nw : bool)
  : option nat :=
  match r with
  | [] => Some 0
  | WordB :: r' =>
      if at_boundary pw s nw then match_here r' pw s nw else None
  | Lit c :: r' =>
      match s with
      | [] => None
      | x :: s' =>
          if (x =? c)%N
          then option_map S (match_here r' (is_word x) s' nw)
          else None
      end
  end.

(** The scan of [re.subn]: at each position try the pattern; a non-empty
    match is replaced and the scan resumes after it ([skip] counts the
    characters of the match still to pass over); an empty match inserts the
    replacement and copies the next character; otherwise the character is
    copied. *)
Fixpoint subn_go (r : regex) (repl : text) (nw : bool)
    (skip : nat) (pw : bool) (s : text) : text * nat :=
  match skip with
  | S k =>
      match s with
      | [] => ([], 0)
      | c :: s' => subn_go r repl nw k (is_word c) s'
      end
  | O =>
      match s with
      | [] =>
          match match_here r pw [] nw with
          | Some _ => (repl, 1)
          | None => ([], 0)
          end
      | c :: s' =>
          match match_here r pw s nw with
          | Some (S n) =>
              let '(o, k) := subn_go r repl nw n (is_word c) s' in
              (repl ++ o, S k)
          | Some O =>
              let '(o, k) := subn_go r repl nw 0 (is_word c) s' in
              (repl ++ c :: o, S k)
          | None =>
              let '(o, k) := subn_go r repl nw 0 (is_word c) s' in
              (c :: o, k)
          end
      end
  end.

(** The scan of [re.findall] (no groups): the matched substrings. *)
Fixpoint findall_go (r : regex) (nw : bool)
    (skip : nat) (pw : bool) (s : text) : list text :=
  match skip with
  | S k =>
      match s with
      | [] => []
      | c :: s' => findall_go r nw k (is_word c) s'
      end
  | O =>
      match s with
      | [] =>
          match match_here r pw [] nw with
          | Some _ => [[]]
          | None => []
          end
      | c :: s' =>
          match match_here r pw s nw with
          | Some (S n) => firstn (S n) s :: findall_go r nw n (is_word c) s'
          | Some O => [] :: findall_go r nw 0 (is_word c) s'
          | None => findall_go r nw 0 (is_word c) s'
          end
      end
  end.

(** [re.sub(pattern, repl, string)] and [re.findall(pattern, string)].  No
    pattern of the script is outside the fragment ([patterns_compile] below),
    so the value chosen for one is never used.  A replacement without a
    backslash is inserted as it is, and no replacement of the script has one
    ([replacements_plain] below). *)
Definition re_compile (pattern : string) : regex :=
  match compile (codes pattern) with
  | Some r => r
  | None => []
  end.

Definition re_sub (pattern repl : string) (s : text) : text :=
  fst (subn_go (re_compile pattern) (codes repl) false 0 false s).

Definition re_findall (pattern : string) (s : text) : list text :=
  findall_go (re_compile pattern) false 0 false s.

End Engine.

(** ** The pattern tables (lines 104-159) *)

Definition PROPERTY_PATTERNS : list (string * string) :=
  [
    ("\.orderId\b", ".order_id");
    ("\.brandId\b", ".brand_id");
    ("\.clientId\b", ".client_id");
    ("\.workspaceId\b", ".workspace_id");
    ("\.userId\b", ".user_id");
    ("\.designId\b", ".design_id");
    ("\.templateId\b", ".template_id");
    ("\.createdAt\b", ".created_at");
    ("\.updatedAt\b", ".updated_at");
    ("\.poNumber\b", ".po_number");
    ("\.totalQty\b", ".total_qty");
    ("\.isActive\b", ".is_active");
    ("\.isDefault\b", ".is_default");
    ("\.targetDeliveryDate\b", ".target_delivery_date");
    ("\.routingSteps\b", ".routing_steps");
    ("\.designAssets\b", ".design_assets")
  ]%string.

Definition OBJECT_PATTERNS : list (string * string) :=
  [
    ("\borderId:", "order_id:");
    ("\bbrandId:", "brand_id:");
    ("\bclientId:", "client_id:");
    ("\bworkspaceId:", "workspace_id:");
    ("\buserId:", "user_id:");
    ("\bdesignId:", "design_id:");
    ("\btemplateId:", "template_id:");
    ("\bcreatedAt:", "created_at:");
    ("\bupdatedAt:", "updated_at:");
    ("\bpoNumber:", "po_number:");
    ("\btotalQty:", "total_qty:");
    ("\bisActive:", "is_active:");
    ("\bisDefault:", "is_default:");
    ("\btargetDeliveryDate:", "target_delivery_date:");
    ("\broutingSteps:", "routing_steps:");
    ("\bdesignAssets:", "design_assets:");
    ("\bstandardSpec:", "standard_spec:")
  ]%string.

Definition VARIABLE_PATTERNS : list (string * string) :=
  [
    ("\buserId\b", "user_id");
    ("\borderId\b", "order_id");
    ("\bbrandId\b", "brand_id");
    ("\bclientId\b", "client_id");
    ("\bworkspaceId\b", "workspace_id");
    ("\bdesignId\b", "design_id");
    ("\btemplateId\b", "template_id");
    ("\broutingStepId\b", "routing_step_id");
    ("\brouteTemplateId\b", "route_template_id");
    ("\bstandardSpec\b", "standard_spec");
    ("\btotalQty\b", "total_qty");
    ("\btargetDeliveryDate\b", "target_delivery_date")
  ]%string.

(** ** The rewrite of one file's content (lines 167-189) *)

Section Rewrite.

Variable uni_alnum : char -> bool.

(** One [for pattern, replacement in ...] loop over a table. *)
Definition apply_patterns (pats : list (string * string))
    (st : text * nat) : text * nat :=
  fold_left
    (fun (st : text * nat) (pr : string * string) =>
       let '(content, changes) := st in
       let '(pattern, replacement) := pr in
       let new_content := re_sub uni_alnum pattern replacement content in
       if negb (text_eqb new_content content)
       then (new_content,
             changes + length (re_findall uni_alnum pattern content))
       else (content, changes))
    pats st.

(** The three loops in their order; the result is the final [content] and
    [changes]. *)
Definition fix_content (content : text) : text * nat :=
  let st := apply_patterns PROPERTY_PATTERNS (content, 0) in
  let st := apply_patterns OBJECT_PATTERNS st in
  apply_patterns VARIABLE_PATTERNS st.

End Rewrite.

(** The three tables in the order the loops take them. *)
Definition ALL_PATTERNS : list (string * string) :=
  PROPERTY_PATTERNS ++ OBJECT_PATTERNS ++ VARIABLE_PATTERNS.

(** ** Effects: files, exceptions, standard output

    What the script asks of its platform: reading a file as UTF-8 text,
    overwriting a file, walking a directory, joining paths, writing a line
    to standard output.  An operation on files returns or raises an
    exception (an instance of [Exception]: [OSError], [UnicodeDecodeError]);
    a write that raises may already have changed the file.

    [print] encodes its line for standard output and raises when that
    fails: [UnicodeEncodeError] when the encoding of standard output has no
    code for a character of the line, as a character of a path may be.
    Nothing of the line is written then.  Standard output is taken to be
    open and its encoding to cover ASCII: a line of ASCII characters is
    always written. *)

Class Platform : Type := {
  fs : Type;
  exn : Type;
  exn_str : exn -> text;                           (* str(e) *)
  read_text : fs -> text -> exn + text;            (* open(p, 'r').read() *)
  write_text : fs -> text -> text -> fs * option exn;
                                             (* open(p, 'w').write(c) *)
  os_walk : fs -> text -> list (text * list text * list text);
  path_join : text -> text -> text;
  stdout_write : text -> option exn;               (* sys.stdout.write(s) *)
  stdout_ascii :
    forall line : text,
      forallb is_ascii line = true -> stdout_write line = None
}.

Section Effects.

Context {P : Platform}.

(** The state of a run: the file system, the lines printed so far and the
    writes requested so far (path and content). *)
Record world : Type := mkWorld {
  disk : fs;
  stdout : list text;
  writes : list (text * text)
}.

(** State and exceptions. *)
Definition M (A : Type) : Type := world -> (exn + A) * world.

Definition ret {A : Type} (a : A) : M A := fun w => (inr a, w).

Definition bind {A B : Type} (m : M A) (k : A -> M B) : M B :=
  fun w =>
    match m w with
    | (inl e, w') => (inl e, w')
    | (inr a, w') => k a w'
    end.

Definition try_except {A : Type} (body : M A) (handler : exn -> M A) : M A :=
  fun w =>
    match body w with
    | (inl e, w') => handler e w'
    | (inr a, w') => (inr a, w')
    end.

Definition read_file (path : text) : M text :=
  fun w => (read_text (disk w) path, w).

Definition write_file (path content : text) : M unit :=
  fun w =>
    let '(d, r) := write_text (disk w) path content in
    let w' := mkWorld d (stdout w) (writes w ++ [(path, content)]) in
    match r with
    | Some e => (inl e, w')
    | None => (inr tt, w')
    end.

(** [print(line)]: the line is added to the output, or the write to
    standard output raises and the output is as before. *)
Definition print (line : text) : M unit :=
  fun w =>
    match stdout_write line with
    | Some e => (inl e, w)
    | None => (inr tt, mkWorld (disk w) (stdout w ++ [line]) (writes w))
    end.

(** [os.walk(top)]: the triples [(root, dirs, files)].  Rewriting a file
    neither adds nor removes a directory entry, so the listing is taken when
    the walk starts. *)
Definition walk (top : text) : M (list (text * list text * list text)) :=
  fun w => (inr (os_walk (disk w) top), w).

(** A [for] loop whose body updates the local variables [st]. *)
Fixpoint for_each {A S : Type} (l : list A) (body : A -> S -> M S) (st : S)
  : M S :=
  match l with
  | [] => ret st
  | a :: l' => bind (body a st) (for_each l' body)
  end.

End Effects.

Notation "x <- m ;; k" := (bind m (fun x => k))
  (at level 61, m at next level, right associativity).
Notation "m ;;; k" := (bind m (fun _ => k))
  (at level 61, right associativity).

Definition str_nat (n : nat) : text :=
  codes (NilEmpty.string_of_uint (Nat.to_uint n)).

Definition endswith (s suffix : text) : bool :=
  (length suffix <=? length s) &&
  text_eqb (skipn (length s - length suffix) s) suffix.

Section Script.

Context {P : Platform}.
Variable uni_alnum : char -> bool.

Definition error_line (file_path : text) (e : exn) : text :=
  codes "Error processing " ++ file_path ++ codes ": " ++ exn_str e.

(** Lines 164-196: the body of the [try]. *)
Definition fix_file_body (file_path : text) : M nat :=
  content <- read_file file_path ;;
  let original_content := content in
  let '(content, changes) := fix_content uni_alnum content in
  (if negb (text_eqb content original_content)
   then write_file file_path content
   else ret tt) ;;;
  ret changes.

(** Lines 161-199. *)
Definition fix_file (file_path : text) : M nat :=
  try_except (fix_file_body file_path)
    (fun e => print (error_line file_path e) ;;; ret 0).

Definition progress_line (changes : nat) (file_path : text) : text :=
  codes "Fixed " ++ str_nat changes ++ codes " patterns in " ++ file_path.

Definition src_dir : text := codes "src".

Definition is_source_file (file : text) : bool :=
  existsb (endswith file) [codes ".ts"; codes ".tsx"].

(** Lines 208-216: the walk; the local variables are
    [(total_changes, files_changed)]. *)
Definition walk_loop : M (nat * nat) :=
  triples <- walk src_dir ;;
  for_each triples
    (fun (triple : text * list text * list text) (st : nat * nat) =>
       let '(root, dirs, files) := triple in
       for_each files
         (fun (file : text) (st : nat * nat) =>
            let '(total_changes, files_changed) := st in
            if is_source_file file
            then
              let file_path := path_join root file in
              changes <- fix_file file_path ;;
              if 0 <? changes
              then
                print (progress_line changes file_path) ;;;
                ret (total_changes + changes, files_changed + 1)
              else ret (total_changes, files_changed)
            else ret (total_changes, files_changed))
         st)
    (0, 0).

(** Lines 201-220. *)
Definition main : M unit :=
  st <- walk_loop ;;
  let '(total_changes, files_changed) := st in
  print (10%N :: codes "Completed!") ;;;
  print (codes "Files changed: " ++ str_nat files_changed) ;;;
  print (codes "Total changes: " ++ str_nat total_changes).

End Script.

(** ** The words of the specification

    Definitions that follow the specification rather than the script; the
    theorems at the end of the file compare the two. *)

Section Specification.

Context {P : Platform}.
Variable uni_alnum : char -> bool.

(** [re.subn(pattern, repl, string)]: the new string and the number of
    substitutions made. *)
Definition re_subn (pattern repl : string) (s : text) : text * nat :=
  subn_go uni_alnum (re_compile pattern) (codes repl) false 0 false s.


(** No pattern of the list is found in [t]. *)
Definition unmatched (pats : list (string * string)) (t : text) : bool :=
  forallb
    (fun pr : string * string =>
       match re_findall uni_alnum (fst pr) t with
       | [] => true
       | _ :: _ => false
       end)
    pats.

(** For each rule of the three groups in their order, the number of matches
    it finds in the text the earlier rules left. *)
Definition match_counts (t : text) : list nat :=
  fst (fold_left
         (fun (st : list nat * text) (pr : string * string) =>
            (fst st ++ [length (re_findall uni_alnum (fst pr) (snd st))],
             re_sub uni_alnum (fst pr) (snd pr) (snd st)))
         ALL_PATTERNS ([], t)).

(** The files the walk hands to [fix_file]: under each directory of the
    walk, the names with a recognised suffix, joined to the directory. *)
Definition candidates (triples : list (text * list text * list text))
  : list text :=
  flat_map
    (fun triple : text * list text * list text =>
       let '(root, dirs, files) := triple in
       map (path_join root) (filter is_source_file files))
    triples.

(** The driver: each candidate is processed in turn.  When the count is
    not zero the progress line [Fixed N patterns in PATH] is printed, one is
    added to the files changed and the count to the total; a zero count
    changes neither counter and prints nothing.  An exception that leaves
    [fix_file] or the print of the progress line ends the run: the files
    that remain are not processed.  The counters are
    [(total_changes, files_changed)]. *)
Fixpoint drive (paths : list text) (st : nat * nat) (w : world)
  : (exn + nat * nat) * world :=
  match paths with
  | [] => (inr st, w)
  | p :: ps =>
      match fix_file uni_alnum p w with
      | (inl e, w1) => (inl e, w1)
      | (inr n, w1) =>
          if (n =? 0)%nat
          then drive ps st w1
          else
            match
              stdout_write
                (codes "Fixed " ++ str_nat n ++ codes " patterns in " ++ p)
            with
            | Some e => (inl e, w1)
            | None =>
                drive ps (fst st + n, snd st + 1)
                  (mkWorld (disk w1)
                     (stdout w1 ++
                      [codes "Fixed " ++ str_nat n ++
                       codes " patterns in " ++ p])
                     (writes w1))
            end
      end
  end.

(** The counts of the files the run gets through, in their order: the list
    ends before the first file at which an exception ends the run. *)
Fixpoint results (paths : list text) (w : world) : list nat :=
  match paths with
  | [] => []
  | p :: ps =>
      match fix_file uni_alnum p w with
      | (inl _, _) => []
      | (inr n, w1) =>
          if (n =? 0)%nat
          then n :: results ps w1
          else
            match
              stdout_write
                (codes "Fixed " ++ str_nat n ++ codes " patterns in " ++ p)
            with
            | Some _ => []
            | None =>
                n :: results ps
                       (mkWorld (disk w1)
                          (stdout w1 ++
                           [codes "Fixed " ++ str_nat n ++
                            codes " patterns in " ++ p])
                          (writes w1))
            end
      end
  end.

Definition startswith (s prefix : text) : bool :=
  text_eqb (firstn (length prefix) s) prefix.

(** The two kinds of line printed about a file. *)
Definition is_error_line (line : text) : bool :=
  startswith line (codes "Error processing ").

Definition is_progress_line (line : text) : bool :=
  startswith line (codes "Fixed ").

(** The progress lines of a run, from the files and their counts. *)
Definition progress_lines (paths : list text) (counts : list nat)
  : list text :=
  flat_map
    (fun pn : text * nat =>
       if (snd pn =? 0)%nat then []
       else [codes "Fixed " ++ str_nat (snd pn) ++ codes " patterns in " ++
             fst pn])
    (combine paths counts).




(** The statement "a write occurs exactly when [fix_file] returns a count
    that is not zero", for one call. *)
Definition write_iff_nonzero_return (path : text) (w : world) : Prop :=
  writes (snd (fix_file uni_alnum path w)) <> writes w <->
  exists n, fst (fix_file uni_alnum path w) = inr n /\ n <> 0.



End Specification.

(** A Unicode table without word characters above ASCII. *)
Definition no_unicode : char -> bool := fun _ => false.

(** ** The mapping table (lines 12-101) *)

Definition FIELD_MAPPINGS : list (string * string) :=
  [
    ("orderId", "order_id");
    ("brandId", "brand_id");
    ("clientId", "client_id");
    ("workspaceId", "workspace_id");
    ("userId", "user_id");
    ("designId", "design_id");
    ("templateId", "template_id");
    ("actorId", "actor_id");
    ("entityId", "entity_id");
    ("entityType", "entity_type");
    ("machineId", "machine_id");
    ("inspectionId", "inspection_id");
    ("operationId", "operation_id");
    ("routeTemplateId", "route_template_id");
    ("routingStepId", "routing_step_id");
    ("createdAt", "created_at");
    ("updatedAt", "updated_at");
    ("targetDate", "target_date");
    ("startDate", "start_date");
    ("endDate", "end_date");
    ("dueDate", "due_date");
    ("completedAt", "completed_at");
    ("approvedAt", "approved_at");
    ("poNumber", "po_number");
    ("productType", "product_type");
    ("totalQty", "total_qty");
    ("unitPrice", "unit_price");
    ("totalValue", "total_value");
    ("targetDelivery", "target_delivery");
    ("targetDeliveryDate", "target_delivery_date");
    ("actualDelivery", "actual_delivery");
    ("actualDeliveryDate", "actual_delivery_date");
    ("designAssets", "design_assets");
    ("assetId", "asset_id");
    ("fileSize", "file_size");
    ("fileName", "file_name");
    ("filePath", "file_path");
    ("mimeType", "mime_type");
    ("standardSpec", "standard_spec");
    ("actualSpec", "actual_spec");
    ("qcStatus", "qc_status");
    ("defectCode", "defect_code");
    ("defectCount", "defect_count");
    ("rejectQty", "reject_qty");
    ("passQty", "pass_qty");
    ("routingSteps", "routing_steps");
    ("stepName", "step_name");
    ("stepId", "step_id");
    ("workCenter", "work_center");
    ("plannedStart", "planned_start");
    ("plannedEnd", "planned_end");
    ("actualStart", "actual_start");
    ("actualEnd", "actual_end");
    ("isActive", "is_active");
    ("isDefault", "is_default");
    ("isComplete", "is_complete");
    ("isApproved", "is_approved");
    ("isRejected", "is_rejected");
    ("canEdit", "can_edit");
    ("canDelete", "can_delete");
    ("canApprove", "can_approve");
    ("costPerUnit", "cost_per_unit");
    ("laborCost", "labor_cost");
    ("materialCost", "material_cost");
    ("totalCost", "total_cost");
    ("pricingData", "pricing_data");
    ("invoiceData", "invoice_data");
    ("lastModified", "last_modified");
    ("dateCreated", "date_created");
    ("dateUpdated", "date_updated");
    ("scheduledFor", "scheduled_for")
  ]%string.

(** [FIELD_MAPPINGS.get(key)]: in a dict literal the last value given for a
    key is the one kept. *)
Definition mapping_get (key : text) : option text :=
  fold_left
    (fun (found : option text) (kv : string * string) =>
       if text_eqb (codes (fst kv)) key then Some (codes (snd kv)) else found)
    FIELD_MAPPINGS None.

(** ** camelCase and snake_case *)

Definition is_upper (c : char) : bool := ((65 <=? c) && (c <=? 90))%N.

(** The snake_case form of a text: each capital letter becomes an
    underscore and the small letter. *)
Definition snake (t : text) : text :=
  flat_map (fun c : char => if is_upper c then [95%N; (c + 32)%N] else [c]) t.

(** The number of capital letters. *)
Definition capitals (t : text) : nat := length (filter is_upper t).

(** The characters a regex of the fragment matches. *)
Definition literal (p : regex) : text :=
  flat_map (fun a : atom => match a with Lit c => [c] | WordB => [] end) p.

(** The identifiers the tables rename after a dot and as a key, but not
    as a word of their own. *)
Definition NOT_VARIABLE : list string :=
  ["createdAt"; "updatedAt"; "poNumber"; "isActive"; "isDefault";
   "routingSteps"; "designAssets"]%string.

(** ** A platform in memory

    Files are kept in an association list from path to content.  A file
    holds text or bytes that are not UTF-8, and has a capacity: a write of
    more characters empties the file and raises.  The walk lists the files
    directly under the top directory.  Standard output is encoded as ASCII:
    the print of a line with any other character raises. *)

Module Mem.

Inductive error : Type :=
| FileNotFound
| DecodeError
| NoSpace
| EncodeError.

Record node : Type := mkNode {
  data : option text;     (* None: the bytes do not decode *)
  capacity : nat
}.

Definition store : Type := list (text * node).

Fixpoint lookup (path : text) (d : store) : option node :=
  match d with
  | [] => None
  | (p, n) :: d' => if text_eqb p path then Some n else lookup path d'
  end.

Fixpoint update (path : text) (n : node) (d : store) : store :=
  match d with
  | [] => [(path, n)]
  | (p, m) :: d' =>
      if text_eqb p path then (p, n) :: d' else (p, m) :: update path n d'
  end.

Definition read (d : store) (path : text) : error + text :=
  match lookup path d with
  | None => inl FileNotFound
  | Some n =>
      match data n with
      | None => inl DecodeError
      | Some t => inr t
      end
  end.

Definition write (d : store) (path content : text) : store * option error :=
  match lookup path d with
  | None => (update path (mkNode (Some content) (length content)) d, None)
  | Some n =>
      if length content <=? capacity n
      then (update path (mkNode (Some content) (capacity n)) d, None)
      else (update path (mkNode (Some []) (capacity n)) d, Some NoSpace)
  end.

Fixpoint strip_prefix (prefix s : text) : option text :=
  match prefix, s with
  | [], _ => Some s
  | x :: prefix', y :: s' =>
      if (x =? y)%N then strip_prefix prefix' s' else None
  | _ :: _, [] => None
  end.

Definition join (a b : text) : text := a ++ codes "/" ++ b.

Definition listing (d : store) (top : text)
  : list (text * list text * list text) :=
  [(top, [],
    flat_map
      (fun entry : text * node =>
         match strip_prefix (join top []) (fst entry) with
         | Some name => [name]
         | None => []
         end)
      d)].

Definition message (e : error) : text :=
  match e with
  | FileNotFound => codes "No such file or directory"
  | DecodeError => codes "invalid start byte"
  | NoSpace => codes "No space left on device"
  | EncodeError => codes "ordinal not in range(128)"
  end.

(** Standard output encoded as ASCII. *)
Definition put (line : text) : option error :=
  if forallb is_ascii line then None else Some EncodeError.

Lemma put_ascii (line : text) : forallb is_ascii line = true -> put line = None.
Proof. intros H. unfold put. now rewrite H. Qed.

Definition platform : Platform :=
  {| fs := store;
     exn := error;
     exn_str := message;
     read_text := read;
     write_text := write;
     os_walk := listing;
     path_join := join;
     stdout_write := put;
     stdout_ascii := put_ascii |}.

(** A directory with a file that is rewritten, one that is left alone, one
    that does not decode, one without room for its rewrite, and one that is
    not a source file. *)
Definition sample : store :=
  [(codes "src/a.ts", mkNode (Some (codes "const userId = 1;")) 100);
   (codes "src/b.tsx", mkNode (Some (codes "let x = 1;")) 100);
   (codes "src/c.ts", mkNode None 100);
   (codes "src/d.ts", mkNode (Some (codes "userId")) 3);
   (codes "src/e.js", mkNode (Some (codes "userId")) 100)].

Definition start : @world platform :=
  @mkWorld platform sample [] [].




End Mem.

(** * Proofs *)

(** Splitting a conjunction into its parts. *)
Ltac conj := repeat match goal with |- _ /\ _ => split end.

(** ** The scan on small inputs *)

Example re_sub_empty_matches (uni_alnum : char -> bool) :
  re_sub uni_alnum "\b" "-" (codes "ab cd") = codes "-ab- -cd-".
Proof. vm_compute. reflexivity. Qed.

Example re_sub_trailing_boundary (uni_alnum : char -> bool) :
  re_sub uni_alnum "\.orderId\b" ".order_id" (codes "a.orderId2 b.orderId")
  = codes "a.orderId2 b.order_id".
Proof. vm_compute. reflexivity. Qed.

Example re_findall_words (uni_alnum : char -> bool) :
  re_findall uni_alnum "\buserId\b" (codes "userId, userIds, (userId)")
  = [codes "userId"; codes "userId"].
Proof. vm_compute. reflexivity. Qed.

(** ** Rules in normal form

    Every pattern of the tables is an optional leading [\b], a non-empty
    literal and an optional trailing [\b].  The proofs work on that form. *)

Record rule : Type := mkRule {
  lead : bool;      (* the pattern starts with \b *)
  lit : text;       (* the literal *)
  trail : bool;     (* the pattern ends with \b *)
  repl : text       (* the replacement *)
}.

Definition atoms_of (r : rule) : regex :=
  (if lead r then [WordB] else []) ++ map Lit (lit r) ++
  (if trail r then [WordB] else []).

Fixpoint lits_of (p : regex) : text * regex :=
  match p with
  | Lit c :: p' => let '(l, q) := lits_of p' in (c :: l, q)
  | _ => ([], p)
  end.

Definition shape (p : regex) (replacement : text) : option rule :=
  let '(ld, p1) := match p with
                   | WordB :: p' => (true, p')
                   | _ => (false, p)
                   end in
  let '(l, p2) := lits_of p1 in
  match p2 with
  | [] => Some (mkRule ld l false replacement)
  | [WordB] => Some (mkRule ld l true replacement)
  | _ => None
  end.

Definition norm (pr : string * string) : option rule :=
  match compile (codes (fst pr)) with
  | Some p => shape p (codes (snd pr))
  | None => None
  end.

Fixpoint norm_all (pats : list (string * string)) : option (list rule) :=
  match pats with
  | [] => Some []
  | pr :: pats' =>
      match norm pr, norm_all pats' with
      | Some r, Some rs => Some (r :: rs)
      | _, _ => None
      end
  end.

Lemma lits_of_sound (p : regex) :
  p = map Lit (fst (lits_of p)) ++ snd (lits_of p).
Proof.
  induction p as [|a p IH]; [reflexivity|].
  destruct a as [c|]; [|reflexivity].
  simpl. destruct (lits_of p) as [l q]. simpl in *. now f_equal.
Qed.

Lemma shape_sound (p : regex) (replacement : text) (r : rule) :
  shape p replacement = Some r -> p = atoms_of r /\ repl r = replacement.
Proof.
  unfold shape, atoms_of.
  destruct p as [|[c|] p'].
  - simpl. intros [= <-]. now split.
  - pose proof (lits_of_sound (Lit c :: p')) as E.
    destruct (lits_of (Lit c :: p')) as [l q]. simpl fst in E; simpl snd in E.
    destruct q as [|[c'|] [|a q']]; try discriminate;
      intros [= <-]; simpl; split; auto.
  - pose proof (lits_of_sound p') as E.
    destruct (lits_of p') as [l q]. simpl fst in E; simpl snd in E.
    destruct q as [|[c'|] [|a q']]; try discriminate;
      intros [= <-]; simpl; split; auto; f_equal; auto.
Qed.

Lemma norm_sound (pr : string * string) (r : rule) :
  norm pr = Some r ->
  re_compile (fst pr) = atoms_of r /\ repl r = codes (snd pr).
Proof.
  unfold norm, re_compile. destruct (compile (codes (fst pr))) as [p|];
    [|discriminate].
  apply shape_sound.
Qed.

(** ** The scan on rules in normal form *)

Section Theory.

Variable uni_alnum : char -> bool.

Local Abbreviation isw := (is_word uni_alnum).
Local Abbreviation bnd := (at_boundary uni_alnum).

(** The literal [b] followed by the trailing boundary when [t] is set. *)
Fixpoint tail_match (t : bool) (b : text) (pw : bool) (s : text) (nw : bool)
  : bool :=
  match b with
  | [] => if t then bnd pw s nw else true
  | x :: b' =>
      match s with
      | [] => false
      | c :: s' => (c =? x)%N && tail_match t b' (isw c) s' nw
      end
  end.

Definition matches (r : rule) (pw : bool) (s : text) (nw : bool) : bool :=
  (if lead r then bnd pw s nw else true) &&
  tail_match (trail r) (lit r) pw s nw.

(** Word class of the last character passed, [pw] when none was. *)
Definition last_word (pw : bool) (l : text) : bool :=
  fold_left (fun _ c => isw c) l pw.

Definition scan (r : rule) (nw pw : bool) (s : text) : text * nat :=
  subn_go uni_alnum (atoms_of r) (repl r) nw 0 pw s.

(** Some position of the window carries a match. *)
Fixpoint has_match (r : rule) (pw : bool) (s : text) (nw : bool) : bool :=
  match s with
  | [] => false
  | c :: s' => matches r pw s nw || has_match r (isw c) s' nw
  end.

Lemma match_here_tail (t : bool) (b : text) :
  forall pw s nw,
    match_here uni_alnum (map Lit b ++ (if t then [WordB] else [])) pw s nw =
    if tail_match t b pw s nw then Some (length b) else None.
Proof.
  induction b as [|x b IH]; intros pw s nw; simpl.
  - destruct t; simpl; [destruct (bnd pw s nw)|]; reflexivity.
  - destruct s as [|c s]; [reflexivity|].
    destruct (c =? x)%N; [|reflexivity].
    rewrite IH. simpl. now destruct (tail_match t b (isw c) s nw).
Qed.

Lemma match_here_atoms (r : rule) (pw : bool) (s : text) (nw : bool) :
  match_here uni_alnum (atoms_of r) pw s nw =
  if matches r pw s nw then Some (length (lit r)) else None.
Proof.
  unfold atoms_of, matches. destruct (lead r); simpl.
  - destruct (bnd pw s nw); [apply match_here_tail|reflexivity].
  - apply match_here_tail.
Qed.

Lemma tail_match_prefix (t : bool) (b : text) :
  forall pw s nw, tail_match t b pw s nw = true ->
    exists rest, s = b ++ rest.
Proof.
  induction b as [|x b IH]; intros pw s nw H; simpl in H.
  - now exists s.
  - destruct s as [|c s]; [discriminate|].
    apply andb_prop in H as [Hc H]. apply N.eqb_eq in Hc. subst c.
    destruct (IH _ _ _ H) as [rest ->]. now exists rest.
Qed.

Lemma matches_prefix (r : rule) (pw : bool) (s : text) (nw : bool) :
  matches r pw s nw = true -> exists rest, s = lit r ++ rest.
Proof.
  unfold matches. intros H. apply andb_prop in H as [_ H].
  eapply tail_match_prefix; eauto.
Qed.

Lemma last_word_snoc (pw : bool) (l : text) (c : char) :
  last_word pw (l ++ [c]) = isw c.
Proof. unfold last_word. now rewrite fold_left_app. Qed.

Lemma last_word_cons (pw : bool) (c : char) (l : text) :
  last_word pw (c :: l) = last_word (isw c) l.
Proof. reflexivity. Qed.

Lemma last_word_app (pw : bool) (a b : text) :
  last_word pw (a ++ b) = last_word (last_word pw a) b.
Proof. unfold last_word. now rewrite fold_left_app. Qed.

Lemma subn_go_skip (p : regex) (R : text) (nw : bool) (a : text) :
  forall pw s,
    subn_go uni_alnum p R nw (length a) pw (a ++ s) =
    subn_go uni_alnum p R nw 0 (last_word pw a) s.
Proof.
  induction a as [|c a IH]; intros pw s; [reflexivity|].
  simpl. apply IH.
Qed.

(** The count of [re.subn] is the number of matches [re.findall] lists. *)
Lemma findall_go_length (p : regex) (R : text) (nw : bool) (s : text) :
  forall k pw,
    length (findall_go uni_alnum p nw k pw s) =
    snd (subn_go uni_alnum p R nw k pw s).
Proof.
  induction s as [|c s IH]; intros k pw.
  - destruct k; simpl; [|reflexivity].
    now destruct (match_here uni_alnum p pw [] nw).
  - destruct k as [|k]; simpl; [|apply IH].
    destruct (match_here uni_alnum p pw (c :: s) nw) as [[|n]|].
    + specialize (IH 0 (isw c)).
      destruct (subn_go uni_alnum p R nw 0 (isw c) s). simpl in *. now f_equal.
    + specialize (IH n (isw c)).
      destruct (subn_go uni_alnum p R nw n (isw c) s). simpl in *. now f_equal.
    + specialize (IH 0 (isw c)).
      destruct (subn_go uni_alnum p R nw 0 (isw c) s). simpl in *. assumption.
Qed.

(** A scan that replaces nothing returns its input. *)
Lemma subn_go_zero (p : regex) (R : text) (nw : bool) (s : text) :
  forall pw o,
    subn_go uni_alnum p R nw 0 pw s = (o, 0) -> o = s.
Proof.
  induction s as [|c s IH]; intros pw o; simpl.
  - destruct (match_here uni_alnum p pw [] nw); intros [= <-]; reflexivity.
  - destruct (match_here uni_alnum p pw (c :: s) nw) as [[|n]|].
    + destruct (subn_go uni_alnum p R nw 0 (isw c) s); discriminate.
    + destruct (subn_go uni_alnum p R nw n (isw c) s); discriminate.
    + destruct (subn_go uni_alnum p R nw 0 (isw c) s) as [o' k] eqn:E.
      intros [= <- ->]. f_equal. eapply IH; eauto.
Qed.

Section OneRule.

Variable r : rule.
Variable nw : bool.
Hypothesis lit_nonempty : lit r <> [].

Lemma matches_nil (pw : bool) : matches r pw [] nw = false.
Proof.
  unfold matches. destruct (lit r) as [|x b]; [congruence|].
  simpl. apply andb_false_r.
Qed.

Lemma scan_nil (pw : bool) : scan r nw pw [] = ([], 0).
Proof.
  unfold scan. simpl. rewrite match_here_atoms, matches_nil. reflexivity.
Qed.

Lemma scan_copy (pw : bool) (c : char) (s : text) :
  matches r pw (c :: s) nw = false ->
  scan r nw pw (c :: s) =
  let '(o, k) := scan r nw (isw c) s in (c :: o, k).
Proof.
  intros H. unfold scan. simpl. rewrite match_here_atoms, H. reflexivity.
Qed.

Lemma scan_hit (pw : bool) (rest : text) :
  matches r pw (lit r ++ rest) nw = true ->
  scan r nw pw (lit r ++ rest) =
  let '(o, k) := scan r nw (last_word pw (lit r)) rest in (repl r ++ o, S k).
Proof.
  intros H. unfold scan.
  destruct (lit r) as [|x b] eqn:E; [congruence|].
  change ((x :: b) ++ rest) with (x :: (b ++ rest)) in *.
  simpl. rewrite match_here_atoms, H, E. cbn [length].
  rewrite subn_go_skip. reflexivity.
Qed.

(** The graph of the scan. *)
Inductive Rw : bool -> text -> text -> nat -> Prop :=
| Rw_nil pw : Rw pw [] [] 0
| Rw_copy pw c s o k :
    matches r pw (c :: s) nw = false ->
    Rw (isw c) s o k ->
    Rw pw (c :: s) (c :: o) k
| Rw_hit pw rest o k :
    matches r pw (lit r ++ rest) nw = true ->
    Rw (last_word pw (lit r)) rest o k ->
    Rw pw (lit r ++ rest) (repl r ++ o) (S k).

Lemma scan_Rw_len (n : nat) :
  forall pw s, length s <= n ->
    Rw pw s (fst (scan r nw pw s)) (snd (scan r nw pw s)).
Proof.
  induction n as [|n IH]; intros pw s Hn.
  - destruct s; [|simpl in Hn; lia]. rewrite scan_nil. constructor.
  - destruct s as [|c s]; [rewrite scan_nil; constructor|].
    destruct (matches r pw (c :: s) nw) eqn:M.
    + destruct (matches_prefix _ _ _ _ M) as [rest E].
      rewrite E in M |- *. rewrite (scan_hit _ _ M).
      assert (Hl : length rest <= n).
      { apply (f_equal (@length _)) in E. rewrite length_app in E.
        simpl in E, Hn. destruct (lit r); [congruence|simpl in E; lia]. }
      specialize (IH (last_word pw (lit r)) rest Hl).
      destruct (scan r nw (last_word pw (lit r)) rest) as [o k].
      now constructor.
    + rewrite (scan_copy _ _ _ M).
      specialize (IH (isw c) s ltac:(simpl in Hn; lia)).
      destruct (scan r nw (isw c) s) as [o k]. now constructor.
Qed.

Lemma scan_Rw (pw : bool) (s : text) :
  Rw pw s (fst (scan r nw pw s)) (snd (scan r nw pw s)).
Proof. apply (scan_Rw_len (length s)). lia. Qed.

Lemma Rw_scan (pw : bool) (s o : text) (k : nat) :
  Rw pw s o k -> scan r nw pw s = (o, k).
Proof.
  induction 1 as [pw|pw c s o k M _ IH|pw rest o k M _ IH].
  - apply scan_nil.
  - rewrite (scan_copy _ _ _ M), IH. reflexivity.
  - rewrite (scan_hit _ _ M), IH. reflexivity.
Qed.

End OneRule.

End Theory.

(** ** Stability of "no match" under a rule

    Two decidable conditions on a pair of rules [i], [j] make sure that the
    replacements of [j] neither contain nor complete a match of [i].  They
    are evaluated on the tables further down. *)

Section Stability.

Variable uni_alnum : char -> bool.

Local Abbreviation isw := (is_word uni_alnum).
Local Abbreviation bnd := (at_boundary uni_alnum).
Local Abbreviation tmatch := (tail_match uni_alnum).
Local Abbreviation rmatch := (matches uni_alnum).
Local Abbreviation hmatch := (has_match uni_alnum).
Local Abbreviation lastw := (last_word uni_alnum).

(** Can the tail [b] match a text that starts with [R]?  What follows [R]
    is unknown, so running off [R] counts as "it can". *)
Fixpoint may_tail (t : bool) (b : text) (pw : bool) (R : text) : bool :=
  match R with
  | [] => true
  | c :: R' =>
      match b with
      | [] => if t then xorb pw (isw c) else true
      | x :: b' => (c =? x)%N && may_tail t b' (isw c) R'
      end
  end.

Definition may_match (i : rule) (pw : bool) (R : text) : bool :=
  (if lead i
   then match R with [] => true | c :: _ => xorb pw (isw c) end
   else true) &&
  may_tail (trail i) (lit i) pw R.

(** No match of [i] starts at a position of [R], whatever follows. *)
Fixpoint inner_free (i : rule) (pw : bool) (R : text) : bool :=
  match R with
  | [] => true
  | c :: R' => negb (may_match i pw R) && inner_free i (isw c) R'
  end.

(** No non-empty tail of the literal [b] matches at the head of [R]. *)
Fixpoint tails_free (t : bool) (b : text) (R : text) : bool :=
  match b with
  | [] => true
  | _ :: b' => negb (may_tail t b false R) && tails_free t b' R
  end.

Definition pair_ok (i j : rule) : bool :=
  tails_free (trail i) (lit i) (repl j) &&
  inner_free i (isw (hd 0%N (repl j))) (tl (repl j)).

(** The replacement keeps the first and the last character of the literal
    and is longer than it. *)
Definition rule_ok (j : rule) : bool :=
  match lit j, repl j with
  | x :: _, y :: _ =>
      (x =? y)%N && (last (lit j) 0 =? last (repl j) 0)%N &&
      (length (lit j) <? length (repl j))
  | _, _ => false
  end.

Lemma may_tail_sound (t : bool) (b : text) :
  forall pw R X nw,
    tmatch t b pw (R ++ X) nw = true -> may_tail t b pw R = true.
Proof.
  induction b as [|x b IH]; intros pw R X nw H; destruct R as [|c R];
    simpl in *; auto.
  apply andb_prop in H as [Hc H]. rewrite Hc. simpl. eauto.
Qed.

Lemma may_tail_pw (t : bool) (x : char) (b : text) (pw pw' : bool) (R : text) :
  may_tail t (x :: b) pw R = may_tail t (x :: b) pw' R.
Proof. destruct R; reflexivity. Qed.

Lemma may_match_sound (i : rule) (pw : bool) (R X : text) (nw : bool) :
  rmatch i pw (R ++ X) nw = true -> may_match i pw R = true.
Proof.
  unfold matches, may_match. intros H. apply andb_prop in H as [Hl Ht].
  apply may_tail_sound in Ht. rewrite Ht, andb_true_r.
  destruct (lead i); [|reflexivity]. destruct R; [reflexivity|exact Hl].
Qed.

Lemma inner_free_sound (i : rule) (R : text) :
  forall pw X nw,
    inner_free i pw R = true ->
    hmatch i pw (R ++ X) nw = hmatch i (lastw pw R) X nw.
Proof.
  induction R as [|c R IH]; intros pw X nw H; [reflexivity|].
  simpl in H. apply andb_prop in H as [Hm H].
  change ((c :: R) ++ X) with (c :: (R ++ X)).
  cbn [has_match]. rewrite (IH _ _ _ H), last_word_cons.
  destruct (rmatch i pw (c :: R ++ X) nw) eqn:M; [|reflexivity].
  apply (may_match_sound i pw (c :: R) X nw) in M.
  rewrite M in Hm. discriminate.
Qed.

Lemma has_match_app_false (i : rule) (a : text) :
  forall pw s nw,
    hmatch i pw (a ++ s) nw = false -> hmatch i (lastw pw a) s nw = false.
Proof.
  induction a as [|c a IH]; intros pw s nw H; [exact H|].
  change ((c :: a) ++ s) with (c :: (a ++ s)) in H. cbn [has_match] in H.
  apply orb_false_elim in H as [_ H]. rewrite last_word_cons. now apply IH.
Qed.

Lemma last_word_last (pw : bool) (l : text) :
  l <> [] -> lastw pw l = isw (last l 0%N).
Proof.
  intros H. destruct (exists_last H) as [l' [c ->]].
  now rewrite last_word_snoc, last_last.
Qed.

Section Pair.

Variables i j : rule.
Variable nw : bool.
Hypothesis Hi : lit i <> [].
Hypothesis Hj : rule_ok j = true.

Lemma rule_ok_lit : lit j <> [].
Proof. unfold rule_ok in Hj. destruct (lit j); [discriminate|congruence]. Qed.

Lemma rule_ok_head (a b : text) (pw : bool) :
  bnd pw (repl j ++ a) nw = bnd pw (lit j ++ b) nw.
Proof.
  unfold rule_ok in Hj. destruct (lit j) as [|x l]; [discriminate|].
  destruct (repl j) as [|y l']; [discriminate|].
  apply andb_prop in Hj as [H _]. apply andb_prop in H as [H _].
  apply N.eqb_eq in H. subst y. reflexivity.
Qed.

Lemma rule_ok_last (pw : bool) : lastw pw (repl j) = lastw pw (lit j).
Proof.
  pose proof Hj as H. unfold rule_ok in H.
  destruct (lit j) as [|x l] eqn:El; [discriminate|].
  destruct (repl j) as [|y l'] eqn:Er; [discriminate|].
  apply andb_prop in H as [H _]. apply andb_prop in H as [_ H].
  apply N.eqb_eq in H.
  rewrite !last_word_last by discriminate. now rewrite H.
Qed.

Lemma rule_ok_length : length (lit j) < length (repl j).
Proof.
  unfold rule_ok in Hj. destruct (lit j); [discriminate|].
  destruct (repl j); [discriminate|].
  apply andb_prop in Hj as [_ H]. now apply Nat.ltb_lt in H.
Qed.

(** A scan of [j] during which [i] matches at no position that is copied. *)
Inductive Quiet : bool -> text -> text -> Prop :=
| Quiet_nil pw : Quiet pw [] []
| Quiet_copy pw c s o :
    rmatch i pw (c :: s) nw = false ->
    Quiet (isw c) s o ->
    Quiet pw (c :: s) (c :: o)
| Quiet_hit pw rest o :
    Quiet (lastw pw (lit j)) rest o ->
    Quiet pw (lit j ++ rest) (repl j ++ o).

(** A tail of [i] that matches in the output matched in the input. *)
Lemma Quiet_tail (pw : bool) (s o : text) :
  Quiet pw s o ->
  forall b,
    tails_free (trail i) b (repl j) = true ->
    tmatch (trail i) b pw o nw = true ->
    tmatch (trail i) b pw s nw = true.
Proof.
  induction 1 as [pw|pw c s o M Q IH|pw rest o Q IH]; intros b Hb H.
  - exact H.
  - destruct b as [|x b]; [exact H|].
    simpl in H |- *. apply andb_prop in H as [Hc H]. rewrite Hc. simpl.
    cbn [tails_free] in Hb. apply andb_prop in Hb as [_ Hb]. now apply IH.
  - destruct b as [|x b].
    + simpl in H |- *. destruct (trail i); [|reflexivity].
      now rewrite <- (rule_ok_head o rest).
    + cbn [tails_free] in Hb. apply andb_prop in Hb as [Hb _].
      apply may_tail_sound in H.
      rewrite (may_tail_pw _ _ _ pw false) in H. rewrite H in Hb. discriminate.
Qed.

Hypothesis Hij : pair_ok i j = true.

Lemma Quiet_no_match (pw : bool) (s o : text) :
  Quiet pw s o -> hmatch i pw o nw = false.
Proof.
  unfold pair_ok in Hij. apply andb_prop in Hij as [Ht Hin].
  induction 1 as [pw|pw c s o M Q IH|pw rest o Q IH].
  - reflexivity.
  - cbn [has_match]. rewrite IH, orb_false_r.
    destruct (rmatch i pw (c :: o) nw) eqn:M'; [|reflexivity].
    unfold matches in M', M. apply andb_prop in M' as [Hl Hm].
    apply (Quiet_tail pw (c :: s) (c :: o)) in Hm;
      [|now constructor|exact Ht].
    rewrite Hm, andb_true_r in M.
    destruct (lead i); [|discriminate].
    unfold at_boundary in M, Hl. simpl in M, Hl. congruence.
  - pose proof Hj as Hr. unfold rule_ok in Hr.
    destruct (lit j) as [|x l] eqn:El; [discriminate|].
    destruct (repl j) as [|y R] eqn:Er; [discriminate|].
    change ((y :: R) ++ o) with (y :: (R ++ o)). cbn [has_match].
    simpl in Hin. rewrite (inner_free_sound _ _ _ _ _ Hin).
    replace (lastw (isw y) R) with (lastw pw (x :: l)).
    + rewrite IH, orb_false_r.
      destruct (rmatch i pw (y :: R ++ o) nw) eqn:M'; [|reflexivity].
      unfold matches in M'. apply andb_prop in M' as [_ Hm].
      apply (may_tail_sound _ _ pw (y :: R) o nw) in Hm.
      destruct (lit i) as [|z b]; [congruence|].
      cbn [tails_free] in Ht. apply andb_prop in Ht as [Ht _].
      rewrite (may_tail_pw _ _ _ pw false) in Hm. rewrite Hm in Ht.
      discriminate.
    + rewrite <- El, <- rule_ok_last, Er. reflexivity.
Qed.

End Pair.

End Stability.

(** ** One rule, then a list of rules, on a window *)

Section Pipeline.

Variable uni_alnum : char -> bool.

Local Abbreviation isw := (is_word uni_alnum).
Local Abbreviation rmatch := (matches uni_alnum).
Local Abbreviation hmatch := (has_match uni_alnum).
Local Abbreviation lastw := (last_word uni_alnum).
Local Abbreviation rscan := (scan uni_alnum).

Lemma rule_ok_nonempty (r : rule) : rule_ok r = true -> lit r <> [].
Proof. apply rule_ok_lit. Qed.

Lemma Rw_Quiet_self (j : rule) (nw pw : bool) (s o : text) (k : nat) :
  Rw uni_alnum j nw pw s o k -> Quiet uni_alnum j j nw pw s o.
Proof. induction 1; constructor; auto. Qed.

Lemma Rw_Quiet_other (i j : rule) (nw pw : bool) (s o : text) (k : nat) :
  Rw uni_alnum j nw pw s o k ->
  hmatch i pw s nw = false ->
  Quiet uni_alnum i j nw pw s o.
Proof.
  induction 1 as [pw|pw c s o k M _ IH|pw rest o k M _ IH]; intros H.
  - constructor.
  - cbn [has_match] in H. apply orb_false_elim in H as [H1 H2].
    constructor; auto.
  - constructor. apply IH. now apply has_match_app_false.
Qed.

Lemma scan_quiet_self (j : rule) (nw pw : bool) (s : text) :
  rule_ok j = true -> pair_ok uni_alnum j j = true ->
  hmatch j pw (fst (rscan j nw pw s)) nw = false.
Proof.
  intros Hj Hjj.
  apply (Quiet_no_match uni_alnum j j nw (rule_ok_nonempty j Hj) Hj Hjj pw s).
  eapply Rw_Quiet_self, scan_Rw, rule_ok_nonempty, Hj.
Qed.

Lemma scan_quiet_other (i j : rule) (nw pw : bool) (s : text) :
  lit i <> [] -> rule_ok j = true -> pair_ok uni_alnum i j = true ->
  hmatch i pw s nw = false ->
  hmatch i pw (fst (rscan j nw pw s)) nw = false.
Proof.
  intros Hi Hj Hij H.
  apply (Quiet_no_match uni_alnum i j nw Hi Hj Hij pw s).
  eapply Rw_Quiet_other; [|exact H].
  apply scan_Rw, rule_ok_nonempty, Hj.
Qed.

Lemma scan_id (r : rule) (nw : bool) (s : text) :
  lit r <> [] ->
  forall pw, hmatch r pw s nw = false -> rscan r nw pw s = (s, 0).
Proof.
  intros Hr. induction s as [|c s IH]; intros pw H.
  - now apply scan_nil.
  - cbn [has_match] in H. apply orb_false_elim in H as [H1 H2].
    rewrite (scan_copy uni_alnum r nw pw c s H1), (IH _ H2). reflexivity.
Qed.

Lemma Rw_count_match (r : rule) (nw pw : bool) (s o : text) (k : nat) :
  lit r <> [] ->
  Rw uni_alnum r nw pw s o k -> (k = 0 <-> hmatch r pw s nw = false).
Proof.
  intros Hn. induction 1 as [pw|pw c s o k M _ IH|pw rest o k M _ IH].
  - now split.
  - cbn [has_match]. rewrite M. simpl. exact IH.
  - split; [discriminate|].
    destruct (lit r) as [|x l] eqn:E; [congruence|].
    change ((x :: l) ++ rest) with (x :: (l ++ rest)) in *.
    cbn [has_match]. now rewrite M.
Qed.

Lemma Rw_length (r : rule) (nw pw : bool) (s o : text) (k : nat) :
  Rw uni_alnum r nw pw s o k ->
  length o + k * length (lit r) = length s + k * length (repl r).
Proof.
  induction 1 as [pw|pw c s o k M _ IH|pw rest o k M _ IH]; simpl.
  - reflexivity.
  - lia.
  - rewrite !length_app. lia.
Qed.

(** A rule changes the text exactly when it replaces a match. *)
Lemma scan_changed (r : rule) (nw pw : bool) (s : text) :
  rule_ok r = true ->
  (snd (rscan r nw pw s) = 0 <-> fst (rscan r nw pw s) = s).
Proof.
  intros Hr. pose proof (rule_ok_nonempty r Hr) as Hn.
  pose proof (scan_Rw uni_alnum r nw Hn pw s) as HR.
  pose proof (Rw_length _ _ _ _ _ _ HR) as HL.
  pose proof (rule_ok_length r Hr) as Hlt.
  split; intros H.
  - apply (Rw_count_match _ _ _ _ _ _ Hn HR) in H.
    now rewrite (scan_id r nw s Hn pw H).
  - rewrite H in HL.
    destruct (snd (rscan r nw pw s)) as [|k]; [reflexivity|]. simpl in HL. nia.
Qed.

Lemma scan_length_le (r : rule) (nw pw : bool) (s : text) :
  rule_ok r = true -> length s <= length (fst (rscan r nw pw s)).
Proof.
  intros Hr. pose proof (rule_ok_nonempty r Hr) as Hn.
  pose proof (Rw_length _ _ _ _ _ _ (scan_Rw uni_alnum r nw Hn pw s)) as HL.
  pose proof (rule_ok_length r Hr) as Hlt. nia.
Qed.

Lemma scan_length_lt (r : rule) (nw pw : bool) (s : text) :
  rule_ok r = true -> snd (rscan r nw pw s) <> 0 ->
  length s < length (fst (rscan r nw pw s)).
Proof.
  intros Hr Hk. pose proof (rule_ok_nonempty r Hr) as Hn.
  pose proof (Rw_length _ _ _ _ _ _ (scan_Rw uni_alnum r nw Hn pw s)) as HL.
  pose proof (rule_ok_length r Hr) as Hlt. nia.
Qed.

(** The rules of a list one after the other, counts added up. *)
Definition pass (rs : list rule) (nw pw : bool) (st : text * nat)
  : text * nat :=
  fold_left
    (fun (st : text * nat) (r : rule) =>
       let '(o, k) := rscan r nw pw (fst st) in (o, snd st + k))
    rs st.

Definition table_ok (rs : list rule) : bool :=
  forallb rule_ok rs &&
  forallb (fun i => forallb (pair_ok uni_alnum i) rs) rs.

Definition quiet_for (rs : list rule) (pw : bool) (s : text) (nw : bool)
  : Prop :=
  forall i, In i rs -> hmatch i pw s nw = false.

Lemma pass_cons (r : rule) (rs : list rule) (nw pw : bool) (st : text * nat) :
  pass (r :: rs) nw pw st =
  pass rs nw pw (fst (rscan r nw pw (fst st)),
                 snd st + snd (rscan r nw pw (fst st))).
Proof. unfold pass. simpl. now destruct (rscan r nw pw (fst st)). Qed.

Lemma pass_app (rs1 rs2 : list rule) (nw pw : bool) (st : text * nat) :
  pass (rs1 ++ rs2) nw pw st = pass rs2 nw pw (pass rs1 nw pw st).
Proof. unfold pass. apply fold_left_app. Qed.

Lemma pass_id (rs : list rule) (nw pw : bool) (s : text) (n : nat) :
  (forall r, In r rs -> lit r <> []) ->
  quiet_for rs pw s nw -> pass rs nw pw (s, n) = (s, n).
Proof.
  revert n. induction rs as [|r rs IH]; intros n Hn Hq; [reflexivity|].
  rewrite pass_cons. cbn [fst snd].
  rewrite (scan_id r nw s (Hn r (or_introl eq_refl)) pw
             (Hq r (or_introl eq_refl))).
  cbn [fst snd]. rewrite Nat.add_0_r.
  apply IH; intros x Hx; [apply Hn|apply Hq]; now right.
Qed.

Section Table.

Variable tbl : list rule.
Hypothesis tbl_ok : table_ok tbl = true.

Lemma tbl_rule_ok (r : rule) : In r tbl -> rule_ok r = true.
Proof.
  intros H. unfold table_ok in tbl_ok. apply andb_prop in tbl_ok as [F _].
  rewrite forallb_forall in F. now apply F.
Qed.

Lemma tbl_pair_ok (i j : rule) :
  In i tbl -> In j tbl -> pair_ok uni_alnum i j = true.
Proof.
  intros Hi Hj. unfold table_ok in tbl_ok. apply andb_prop in tbl_ok as [_ F].
  rewrite forallb_forall in F. specialize (F i Hi).
  rewrite forallb_forall in F. now apply F.
Qed.

(** Running a part of the table keeps quiet what was quiet and makes the
    rules that ran quiet. *)
Lemma pass_quiet (rs : list rule) (nw pw : bool) :
  forall (done : list rule) (s : text) (n : nat),
    incl rs tbl -> incl done tbl ->
    quiet_for done pw s nw ->
    quiet_for (done ++ rs) pw (fst (pass rs nw pw (s, n))) nw.
Proof.
  induction rs as [|j rs IH]; intros done s n Hrs Hd Hq.
  - rewrite app_nil_r. exact Hq.
  - rewrite pass_cons. cbn [fst snd].
    assert (Hj : In j tbl) by (apply Hrs; now left).
    replace (done ++ j :: rs) with ((done ++ [j]) ++ rs)
      by now rewrite <- app_assoc.
    apply IH.
    + intros x Hx. apply Hrs. now right.
    + intros x Hx. apply in_app_or in Hx as [Hx|[<-|[]]]; auto.
    + intros i Hi. apply in_app_or in Hi as [Hi|[<-|[]]].
      * apply scan_quiet_other; auto.
        -- apply rule_ok_nonempty, tbl_rule_ok, Hd, Hi.
        -- now apply tbl_rule_ok.
        -- apply tbl_pair_ok; auto.
      * apply scan_quiet_self; [now apply tbl_rule_ok|now apply tbl_pair_ok].
Qed.

Lemma pass_table_quiet (nw pw : bool) (s : text) (n : nat) :
  quiet_for tbl pw (fst (pass tbl nw pw (s, n))) nw.
Proof.
  apply (pass_quiet tbl nw pw [] s n); [apply incl_refl| |].
  - intros x [].
  - intros x [].
Qed.

(** The table is idempotent on every window. *)
Lemma pass_idempotent (nw pw : bool) (s : text) (n m : nat) :
  pass tbl nw pw (fst (pass tbl nw pw (s, n)), m) =
  (fst (pass tbl nw pw (s, n)), m).
Proof.
  apply pass_id.
  - intros r Hr. now apply rule_ok_nonempty, tbl_rule_ok.
  - apply pass_table_quiet.
Qed.

End Table.

End Pipeline.

(** ** The tables as rules *)

Definition rules_of (pats : list (string * string)) : list rule :=
  match norm_all pats with
  | Some rs => rs
  | None => []
  end.

Definition RULES : list rule := rules_of ALL_PATTERNS.

Lemma patterns_compile : norm_all ALL_PATTERNS = Some RULES.
Proof. vm_compute. reflexivity. Qed.

Lemma replacements_plain :
  forallb (fun pr : string * string =>
             negb (existsb (N.eqb 92%N) (codes (snd pr))))
    ALL_PATTERNS = true.
Proof. vm_compute. reflexivity. Qed.

Lemma RULES_ok (uni_alnum : char -> bool) : table_ok uni_alnum RULES = true.
Proof. vm_compute. reflexivity. Qed.

Lemma text_eqb_eq (a b : text) : text_eqb a b = true <-> a = b.
Proof.
  revert b. induction a as [|x a IH]; intros [|y b]; simpl;
    try (split; [discriminate|congruence]); [now split|].
  rewrite andb_true_iff, N.eqb_eq, IH. split.
  - intros [-> ->]. reflexivity.
  - intros [= -> ->]. now split.
Qed.

Section Source.

Variable uni_alnum : char -> bool.

Lemma norm_all_app (p1 p2 : list (string * string)) (rs : list rule) :
  norm_all (p1 ++ p2) = Some rs ->
  exists r1 r2,
    norm_all p1 = Some r1 /\ norm_all p2 = Some r2 /\ rs = r1 ++ r2.
Proof.
  revert rs. induction p1 as [|pr p1 IH]; intros rs H; simpl in *.
  - exists [], rs. auto.
  - destruct (norm pr) as [r|]; [|discriminate].
    destruct (norm_all (p1 ++ p2)) as [rs'|]; [|discriminate].
    destruct (IH rs' eq_refl) as (r1 & r2 & -> & -> & ->).
    injection H as <-. exists (r :: r1), r2. auto.
Qed.

(** One iteration of a loop of [fix_file] is one scan. *)
Lemma loop_body_scan (pr : string * string) (r : rule)
    (content : text) (changes : nat) :
  norm pr = Some r -> rule_ok r = true ->
  (let new_content :=
     re_sub uni_alnum (fst pr) (snd pr) content in
   if negb (text_eqb new_content content)
   then (new_content,
         changes + length (re_findall uni_alnum (fst pr) content))
   else (content, changes)) =
  (fst (scan uni_alnum r false false content),
   changes + snd (scan uni_alnum r false false content)).
Proof.
  intros Hn Hr. destruct (norm_sound pr r Hn) as [Hc Hp].
  unfold re_sub, re_findall. rewrite Hc, <- Hp.
  rewrite (findall_go_length uni_alnum (atoms_of r) (repl r)).
  fold (scan uni_alnum r false false content). cbv zeta.
  destruct (text_eqb (fst (scan uni_alnum r false false content)) content)
    eqn:E; simpl.
  - apply text_eqb_eq in E.
    rewrite (proj2 (scan_changed uni_alnum r false false content Hr) E).
    now rewrite E, Nat.add_0_r.
  - reflexivity.
Qed.

Lemma apply_patterns_pass (pats : list (string * string)) :
  forall (rs : list rule) (st : text * nat),
    norm_all pats = Some rs -> forallb rule_ok rs = true ->
    apply_patterns uni_alnum pats st = pass uni_alnum rs false false st.
Proof.
  induction pats as [|pr pats IH]; intros rs st Hn Hok; simpl in Hn.
  - injection Hn as <-. reflexivity.
  - destruct (norm pr) as [r|] eqn:Er; [|discriminate].
    destruct (norm_all pats) as [rs'|] eqn:Ers; [|discriminate].
    injection Hn as <-. simpl in Hok. apply andb_prop in Hok as [Hr Hok].
    rewrite pass_cons. unfold apply_patterns. cbn [fold_left].
    fold (apply_patterns uni_alnum pats).
    destruct st as [content changes]. destruct pr as [pattern replacement].
    pose proof (loop_body_scan (pattern, replacement) r content changes Er Hr)
      as E.
    cbn [fst snd] in E |- *. cbv zeta in E. rewrite E. now apply IH.
Qed.

Lemma RULES_rule_ok : forallb rule_ok RULES = true.
Proof. vm_compute. reflexivity. Qed.

(** The content part of [fix_file] is the table run on the whole text. *)
Lemma fix_content_pass (content : text) :
  fix_content uni_alnum content =
  pass uni_alnum RULES false false (content, 0).
Proof.
  unfold fix_content.
  pose proof patterns_compile as H. unfold ALL_PATTERNS in H.
  apply norm_all_app in H as (r1 & r23 & H1 & H & E).
  apply norm_all_app in H as (r2 & r3 & H2 & H3 & ->).
  pose proof RULES_rule_ok as Hok. rewrite E in Hok |- *.
  rewrite !forallb_app in Hok.
  apply andb_prop in Hok as [O1 O]. apply andb_prop in O as [O2 O3].
  rewrite !pass_app.
  rewrite (apply_patterns_pass _ r1 _ H1 O1).
  rewrite (apply_patterns_pass _ r2 _ H2 O2).
  now rewrite (apply_patterns_pass _ r3 _ H3 O3).
Qed.

End Source.

(** ** Counting matches *)

Section Counting.

Variable uni_alnum : char -> bool.


(** Where a pattern is listed by [re.findall], [re.subn] substitutes. *)
Lemma re_findall_count (pattern repl : string) (s : text) :
  length (re_findall uni_alnum pattern s) =
  snd (re_subn uni_alnum pattern repl s).
Proof. apply findall_go_length. Qed.

Lemma re_sub_subn (pattern repl : string) (s : text) :
  re_sub uni_alnum pattern repl s = fst (re_subn uni_alnum pattern repl s).
Proof. reflexivity. Qed.

End Counting.

(** ** Texts without a match, and the equivalence of count and change *)

Section NoMatch.

Variable uni_alnum : char -> bool.

Lemma apply_patterns_unmatched (pats : list (string * string)) (t : text)
    (n : nat) :
  unmatched uni_alnum pats t = true ->
  apply_patterns uni_alnum pats (t, n) = (t, n).
Proof.
  induction pats as [|[pattern replacement] pats IH]; intros H;
    [reflexivity|].
  cbn [unmatched forallb fst] in H. apply andb_prop in H as [F H].
  unfold apply_patterns. cbn [fold_left].
  fold (apply_patterns uni_alnum pats).
  assert (E : re_sub uni_alnum pattern replacement t = t).
  { pose proof (re_findall_count uni_alnum pattern replacement t) as L.
    destruct (re_findall uni_alnum pattern t); [|discriminate].
    simpl in L. rewrite re_sub_subn.
    destruct (re_subn uni_alnum pattern replacement t) as [o k] eqn:S.
    simpl in L |- *. subst k. eapply subn_go_zero, S. }
  rewrite E. rewrite (proj2 (text_eqb_eq t t) eq_refl). simpl.
  apply IH, H.
Qed.

Lemma fix_content_unmatched (t : text) :
  unmatched uni_alnum ALL_PATTERNS t = true ->
  fix_content uni_alnum t = (t, 0).
Proof.
  unfold unmatched, ALL_PATTERNS. rewrite !forallb_app.
  intros H. apply andb_prop in H as [H1 H]. apply andb_prop in H as [H2 H3].
  unfold fix_content. now rewrite !apply_patterns_unmatched.
Qed.

Lemma pass_grows (rs : list rule) (nw pw : bool) :
  forallb rule_ok rs = true ->
  forall s n,
    n <= snd (pass uni_alnum rs nw pw (s, n)) /\
    length s <= length (fst (pass uni_alnum rs nw pw (s, n))) /\
    (snd (pass uni_alnum rs nw pw (s, n)) = n ->
     fst (pass uni_alnum rs nw pw (s, n)) = s) /\
    (n < snd (pass uni_alnum rs nw pw (s, n)) ->
     length s < length (fst (pass uni_alnum rs nw pw (s, n)))).
Proof.
  induction rs as [|r rs IH]; intros Hok s n.
  - simpl. repeat split; auto; lia.
  - simpl in Hok. apply andb_prop in Hok as [Hr Hok].
    rewrite pass_cons. cbn [fst snd].
    pose proof (scan_length_le uni_alnum r nw pw s Hr) as L1.
    pose proof (scan_length_lt uni_alnum r nw pw s Hr) as L2.
    pose proof (proj1 (scan_changed uni_alnum r nw pw s Hr)) as L3.
    destruct (scan uni_alnum r nw pw s) as [o k]. cbn [fst snd] in *.
    destruct (IH Hok o (n + k)) as (A & B & C & D).
    repeat split; try lia.
    intros E. assert (k = 0) by lia. subst k.
    rewrite C by lia. now apply L3.
Qed.

Lemma fix_content_count_change (t : text) :
  snd (fix_content uni_alnum t) <> 0 <-> fst (fix_content uni_alnum t) <> t.
Proof.
  rewrite fix_content_pass.
  destruct (pass_grows RULES false false RULES_rule_ok t 0) as (A & B & C & D).
  split.
  - intros H E. rewrite E in D. specialize (D ltac:(lia)). lia.
  - intros H E. apply H, C, E.
Qed.

End NoMatch.

(** ** The loops of [main] *)

Section Driver.

Context {P : Platform}.
Variable uni_alnum : char -> bool.

Lemma fix_file_cases (path : text) (w : world) :
  fix_file uni_alnum path w =
  match fix_file_body uni_alnum path w with
  | (inl e, w1) =>
      match stdout_write (error_line path e) with
      | Some e' => (inl e', w1)
      | None =>
          (inr 0,
           mkWorld (disk w1) (stdout w1 ++ [error_line path e]) (writes w1))
      end
  | (inr n, w1) => (inr n, w1)
  end.
Proof.
  unfold fix_file, try_except.
  destruct (fix_file_body uni_alnum path w) as [[e|n] w1]; [|reflexivity].
  unfold bind, print. destruct (stdout_write (error_line path e)); reflexivity.
Qed.

Lemma fix_file_body_read_error (path : text) (w : world) (e : exn) :
  read_text (disk w) path = inl e ->
  fix_file_body uni_alnum path w = (inl e, w).
Proof.
  intros H. unfold fix_file_body, bind, read_file. now rewrite H.
Qed.

Lemma fix_file_body_same (path : text) (w : world) (t : text) :
  read_text (disk w) path = inr t ->
  fst (fix_content uni_alnum t) = t ->
  fix_file_body uni_alnum path w = (inr (snd (fix_content uni_alnum t)), w).
Proof.
  intros H E. unfold fix_file_body, bind, read_file. rewrite H.
  destruct (fix_content uni_alnum t) as [o k]. simpl in E. subst o.
  rewrite (proj2 (text_eqb_eq t t) eq_refl). reflexivity.
Qed.

Lemma fix_file_body_write (path : text) (w : world) (t : text) :
  read_text (disk w) path = inr t ->
  fst (fix_content uni_alnum t) <> t ->
  fix_file_body uni_alnum path w =
  let new_text := fst (fix_content uni_alnum t) in
  let '(d, r) := write_text (disk w) path new_text in
  let w' := mkWorld d (stdout w) (writes w ++ [(path, new_text)]) in
  match r with
  | Some e => (inl e, w')
  | None => (inr (snd (fix_content uni_alnum t)), w')
  end.
Proof.
  intros H E. unfold fix_file_body, bind, read_file. rewrite H.
  destruct (fix_content uni_alnum t) as [o k]. simpl in E |- *.
  destruct (text_eqb o t) eqn:B; [apply text_eqb_eq in B; contradiction|].
  simpl. unfold write_file.
  destruct (write_text (disk w) path o) as [d [e|]]; reflexivity.
Qed.

Lemma bind_assoc {A B C : Type} (m : M A) (f : A -> M B) (g : B -> M C)
    (w : world) :
  bind (bind m f) g w = bind m (fun x => bind (f x) g) w.
Proof. unfold bind. destruct (m w) as [[e|a] w1]; reflexivity. Qed.

Lemma bind_ext {A B : Type} (m : M A) (k1 k2 : A -> M B) (w : world) :
  (forall a w', k1 a w' = k2 a w') -> bind m k1 w = bind m k2 w.
Proof.
  intros H. unfold bind. destruct (m w) as [[e|a] w1]; [reflexivity|apply H].
Qed.

Lemma bind_ret {A B : Type} (a : A) (k : A -> M B) (w : world) :
  bind (ret a) k w = k a w.
Proof. reflexivity. Qed.

Lemma drive_app (p1 p2 : list text) :
  forall (st : nat * nat) (w : world),
    drive uni_alnum (p1 ++ p2) st w =
    bind (drive uni_alnum p1 st) (drive uni_alnum p2) w.
Proof.
  induction p1 as [|p p1 IH]; intros st w; [reflexivity|].
  cbn [app drive]. unfold bind at 1.
  destruct (fix_file uni_alnum p w) as [[e|n] w1]; [reflexivity|].
  destruct (n =? 0)%nat; [apply IH|].
  destruct (stdout_write _); [reflexivity|apply IH].
Qed.

Definition file_body (root file : text) (st : nat * nat) : M (nat * nat) :=
  let '(total_changes, files_changed) := st in
  if is_source_file file
  then
    let file_path := path_join root file in
    changes <- fix_file uni_alnum file_path ;;
    if 0 <? changes
    then
      print (progress_line changes file_path) ;;;
      ret (total_changes + changes, files_changed + 1)
    else ret (total_changes, files_changed)
  else ret (total_changes, files_changed).

Lemma drive_files (root : text) (files : list text) :
  forall (st : nat * nat) (w : world),
    for_each files (file_body root) st w =
    drive uni_alnum (map (path_join root) (filter is_source_file files)) st w.
Proof.
  induction files as [|f files IH]; intros [tc fc] w; [reflexivity|].
  cbn [for_each filter]. unfold file_body at 1.
  destruct (is_source_file f).
  - cbn [map drive]. cbv zeta. rewrite bind_assoc. unfold bind at 1.
    destruct (fix_file uni_alnum (path_join root f) w) as [[e|n] w1];
      [reflexivity|].
    destruct n as [|n].
    + cbn [Nat.ltb Nat.leb Nat.eqb]. rewrite bind_ret. apply IH.
    + change (0 <? S n) with true. cbn [Nat.eqb]. cbv iota.
      rewrite bind_assoc. unfold bind at 1, print at 1.
      unfold progress_line.
      destruct (stdout_write _); [reflexivity|].
      rewrite bind_ret. apply IH.
  - rewrite bind_ret. apply IH.
Qed.

Lemma drive_triples (triples : list (text * list text * list text)) :
  forall (st : nat * nat) (w : world),
    for_each triples
      (fun (triple : text * list text * list text) (st : nat * nat) =>
         let '(root, dirs, files) := triple in
         for_each files (file_body root) st)
      st w =
    drive uni_alnum (candidates triples) st w.
Proof.
  induction triples as [|[[root dirs] files] triples IH]; intros st w;
    [reflexivity|].
  cbn [for_each candidates flat_map]. rewrite drive_app.
  unfold bind. rewrite drive_files.
  destruct (drive uni_alnum
              (map (path_join root) (filter is_source_file files)) st w)
    as [[e|st'] w1]; [reflexivity|].
  apply IH.
Qed.

(** The walk of [main] is the driver on the candidates of the walk. *)
Lemma walk_loop_drive (w : world) :
  walk_loop uni_alnum w =
  drive uni_alnum (candidates (os_walk (disk w) src_dir)) (0, 0) w.
Proof.
  unfold walk_loop, bind at 1, walk. apply drive_triples.
Qed.




(** Decimal numbers are ASCII. *)
Lemma str_nat_ascii (n : nat) : forallb is_ascii (str_nat n) = true.
Proof.
  unfold str_nat. generalize (Nat.to_uint n). intros d.
  induction d; cbn [NilEmpty.string_of_uint]; try reflexivity;
    unfold codes in *; cbn [list_ascii_of_string map forallb];
    rewrite IHd; reflexivity.
Qed.

Lemma forallb_ascii_app (a b : text) :
  forallb is_ascii (a ++ b) = forallb is_ascii a && forallb is_ascii b.
Proof. apply forallb_app. Qed.

(** The three lines of the summary are always printed. *)
Lemma summary_accepted (n : nat) :
  stdout_write (10%N :: codes "Completed!") = None /\
  stdout_write (codes "Files changed: " ++ str_nat n) = None /\
  stdout_write (codes "Total changes: " ++ str_nat n) = None.
Proof.
  repeat split; apply stdout_ascii; try reflexivity;
    rewrite forallb_ascii_app, str_nat_ascii; reflexivity.
Qed.

(** [main] after its walk. *)
Lemma main_cases (w : world) :
  main uni_alnum w =
  match walk_loop uni_alnum w with
  | (inl e, w1) => (inl e, w1)
  | (inr (total_changes, files_changed), w1) =>
      (inr tt,
       mkWorld (disk w1)
         (stdout w1 ++
          [10%N :: codes "Completed!";
           codes "Files changed: " ++ str_nat files_changed;
           codes "Total changes: " ++ str_nat total_changes])
         (writes w1))
  end.
Proof.
  unfold main. unfold bind at 1.
  destruct (walk_loop uni_alnum w) as [[e|[tc fc]] w1]; [reflexivity|].
  destruct (summary_accepted fc) as (E1 & E2 & _).
  destruct (summary_accepted tc) as (_ & _ & E3).
  unfold bind, print. rewrite E1. cbn [disk stdout writes].
  rewrite E2. cbn [disk stdout writes]. rewrite E3.
  cbn [disk stdout writes]. now rewrite <- !app_assoc.
Qed.

End Driver.

(** ** Splitting a text

    A text [A ++ Y] can be rewritten piece by piece when no match straddles
    the junction: when the last character of [A] and the first of [Y] are
    next to each other in no literal. *)

Section Split.

Variable uni_alnum : char -> bool.

Local Abbreviation isw := (is_word uni_alnum).
Local Abbreviation bnd := (at_boundary uni_alnum).
Local Abbreviation hdw := (head_word uni_alnum).
Local Abbreviation tmatch := (tail_match uni_alnum).
Local Abbreviation rmatch := (matches uni_alnum).
Local Abbreviation lastw := (last_word uni_alnum).
Local Abbreviation rscan := (scan uni_alnum).
Local Abbreviation rpass := (pass uni_alnum).

Fixpoint adjacent (l : text) (a y : char) : bool :=
  match l with
  | x1 :: ((x2 :: _) as l') => (x1 =? a)%N && (x2 =? y)%N || adjacent l' a y
  | _ => false
  end.

Lemma adjacent_cons (x1 x2 : char) (l : text) (a y : char) :
  adjacent (x1 :: x2 :: l) a y =
  (x1 =? a)%N && (x2 =? y)%N || adjacent (x2 :: l) a y.
Proof. reflexivity. Qed.

Lemma adjacent_app (u v : text) :
  u <> [] -> v <> [] -> adjacent (u ++ v) (last u 0%N) (hd 0%N v) = true.
Proof.
  intros Hu Hv. destruct v as [|y v]; [congruence|]. clear Hv.
  induction u as [|x u IH]; [congruence|].
  destruct u as [|x' u].
  - simpl. now rewrite !N.eqb_refl.
  - change (last (x :: x' :: u) 0%N) with (last (x' :: u) 0%N).
    change ((x :: x' :: u) ++ y :: v) with (x :: x' :: (u ++ y :: v)).
    rewrite adjacent_cons.
    change (x' :: u ++ y :: v) with ((x' :: u) ++ y :: v).
    rewrite IH by discriminate. apply orb_true_r.
Qed.

Lemma head_word_app (A Y : text) (nw : bool) :
  hdw (A ++ Y) nw = hdw A (hdw Y nw).
Proof. now destruct A. Qed.

Lemma tail_match_window (t : bool) (b : text) :
  forall pw A Y nw,
    length b <= length A ->
    tmatch t b pw (A ++ Y) nw = tmatch t b pw A (hdw Y nw).
Proof.
  induction b as [|x b IH]; intros pw A Y nw H.
  - simpl. unfold at_boundary. now rewrite head_word_app.
  - destruct A as [|c A]; [simpl in H; lia|].
    simpl. rewrite IH by (simpl in H; lia). reflexivity.
Qed.

Lemma matches_window (r : rule) (pw : bool) (A Y : text) (nw : bool) :
  length (lit r) <= length A ->
  rmatch r pw (A ++ Y) nw = rmatch r pw A (hdw Y nw).
Proof.
  intros H. unfold matches. rewrite tail_match_window by exact H.
  unfold at_boundary. now rewrite head_word_app.
Qed.

Lemma app_split_long (A Y L rest : text) :
  A ++ Y = L ++ rest -> length A < length L ->
  exists v, v <> [] /\ L = A ++ v /\ Y = v ++ rest.
Proof.
  revert L. induction A as [|c A IH]; intros L E H.
  - exists L. simpl in *. destruct L; [simpl in H; lia|]. now repeat split.
  - destruct L as [|x L]; [simpl in H; lia|].
    simpl in E. injection E as -> E.
    destruct (IH L E ltac:(simpl in H; lia)) as (v & Hv & -> & ->).
    exists v. now repeat split.
Qed.

Section SplitRule.

Variable r : rule.
Hypothesis Hr : lit r <> [].
Variables (Y : text) (nw : bool) (a y : char).
Hypothesis Hy : Y <> [] -> hd 0%N Y = y.
Hypothesis Hfree : adjacent (lit r) a y = false.

Lemma no_crossing (pw : bool) (A : text) :
  A <> [] -> last A 0%N = a ->
  rmatch r pw A (hdw Y nw) = false ->
  rmatch r pw (A ++ Y) nw = false.
Proof.
  intros HA Ha M. destruct (rmatch r pw (A ++ Y) nw) eqn:F; [|reflexivity].
  destruct (le_lt_dec (length (lit r)) (length A)) as [L|L].
  - rewrite matches_window in F by exact L. congruence.
  - destruct (matches_prefix _ _ _ _ _ F) as [rest E].
    destruct (app_split_long _ _ _ _ E L) as (v & Hv & EL & EY).
    assert (HY : Y <> [])
      by (rewrite EY; destruct v; [congruence|discriminate]).
    pose proof (adjacent_app A v HA Hv) as Adj.
    rewrite <- EL, Ha in Adj.
    replace (hd 0%N v) with y in Adj.
    + congruence.
    + rewrite <- (Hy HY), EY. destruct v; [congruence|reflexivity].
Qed.

Lemma Rw_split (pw : bool) (A o : text) (k : nat) :
  Rw uni_alnum r (hdw Y nw) pw A o k ->
  (A <> [] -> last A 0%N = a) ->
  rscan r nw pw (A ++ Y) =
  (o ++ fst (rscan r nw (lastw pw A) Y),
   k + snd (rscan r nw (lastw pw A) Y)).
Proof.
  induction 1 as [pw|pw c s o k M _ IH|pw rest o k M _ IH]; intros Ha.
  - simpl. now destruct (rscan r nw pw Y).
  - change ((c :: s) ++ Y) with (c :: (s ++ Y)).
    rewrite scan_copy.
    + rewrite IH, last_word_cons; [reflexivity|].
      intros Hs. rewrite <- Ha by discriminate.
      destruct s; [congruence|reflexivity].
    + apply (no_crossing pw (c :: s));
        [discriminate|apply Ha; discriminate|exact M].
  - rewrite <- app_assoc. rewrite scan_hit.
    + rewrite IH, last_word_app; [now rewrite app_assoc|].
      intros Hs. rewrite <- Ha.
      * destruct (exists_last Hs) as (l' & z & ->).
        now rewrite app_assoc, !last_last.
      * destruct (lit r); [congruence|discriminate].
    + exact Hr.
    + rewrite app_assoc, matches_window; [exact M|].
      rewrite length_app. lia.
Qed.

Lemma scan_split (pw : bool) (A : text) :
  (A <> [] -> last A 0%N = a) ->
  rscan r nw pw (A ++ Y) =
  (fst (rscan r (hdw Y nw) pw A) ++ fst (rscan r nw (lastw pw A) Y),
   snd (rscan r (hdw Y nw) pw A) + snd (rscan r nw (lastw pw A) Y)).
Proof.
  intros Ha. apply Rw_split; [|exact Ha]. now apply scan_Rw.
Qed.

End SplitRule.

(** A scan keeps the first and the last character of its text. *)
Lemma Rw_ends (r : rule) (nw pw : bool) (s o : text) (k : nat) :
  rule_ok r = true ->
  Rw uni_alnum r nw pw s o k ->
  hd 0%N o = hd 0%N s /\ last o 0%N = last s 0%N /\ (o = [] <-> s = []).
Proof.
  intros Hr. induction 1 as [pw|pw c s o k M _ IH|pw rest o k M _ IH].
  - repeat split; auto.
  - destruct IH as (_ & IL & IE). repeat split; try discriminate.
    destruct s as [|c' s].
    + rewrite (proj2 IE eq_refl). reflexivity.
    + destruct o as [|c'' o]; [discriminate (proj1 IE eq_refl)|].
      exact IL.
  - destruct IH as (_ & IL & IE).
    unfold rule_ok in Hr.
    destruct (lit r) as [|x l] eqn:El; [discriminate|].
    destruct (repl r) as [|z R] eqn:Er; [discriminate|].
    apply andb_prop in Hr as [Hr _]. apply andb_prop in Hr as [H1 H2].
    apply N.eqb_eq in H1, H2. subst z.
    repeat split; try discriminate.
    destruct rest as [|c' rest].
    + rewrite (proj2 IE eq_refl), !app_nil_r. now symmetry.
    + destruct o as [|c'' o]; [discriminate (proj1 IE eq_refl)|].
      destruct (@exists_last _ (c' :: rest) ltac:(discriminate))
        as (l1 & z1 & E1).
      destruct (@exists_last _ (c'' :: o) ltac:(discriminate))
        as (l2 & z2 & E2).
      rewrite E1, E2 in IL |- *. rewrite !last_last in IL.
      now rewrite !app_assoc, !last_last.
Qed.

Lemma scan_ends (r : rule) (nw pw : bool) (s : text) :
  rule_ok r = true ->
  hd 0%N (fst (rscan r nw pw s)) = hd 0%N s /\
  last (fst (rscan r nw pw s)) 0%N = last s 0%N /\
  (fst (rscan r nw pw s) = [] <-> s = []).
Proof.
  intros Hr. eapply Rw_ends; [exact Hr|].
  apply scan_Rw. now apply rule_ok_lit.
Qed.

Lemma head_word_hd (s s' : text) (nw : bool) :
  hd 0%N s' = hd 0%N s -> (s' = [] <-> s = []) -> hdw s' nw = hdw s nw.
Proof.
  intros H E. destruct s as [|c s], s' as [|c' s']; try reflexivity.
  - discriminate (proj2 E eq_refl).
  - discriminate (proj1 E eq_refl).
  - simpl in H. now subst.
Qed.

Lemma last_word_eq (s s' : text) (pw : bool) :
  last s' 0%N = last s 0%N -> (s' = [] <-> s = []) ->
  lastw pw s' = lastw pw s.
Proof.
  intros H E. destruct s as [|c s].
  - now rewrite (proj2 E eq_refl).
  - destruct s' as [|c' s']; [discriminate (proj1 E eq_refl)|].
    rewrite !last_word_last by discriminate. now rewrite H.
Qed.

Lemma pass_shift (rs : list rule) (nw pw : bool) :
  forall s n,
    rpass rs nw pw (s, n) =
    (fst (rpass rs nw pw (s, 0)), n + snd (rpass rs nw pw (s, 0))).
Proof.
  induction rs as [|r rs IH]; intros s n.
  - simpl. now rewrite Nat.add_0_r.
  - rewrite !pass_cons. cbn [fst snd].
    rewrite (IH _ (n + _)), (IH _ (0 + _)). cbn [fst snd]. f_equal. lia.
Qed.

Definition junction_free (rs : list rule) (a y : char) : bool :=
  forallb (fun r => negb (adjacent (lit r) a y)) rs.

Lemma pass_split (rs : list rule) (nw pw : bool) (a y : char) :
  forallb rule_ok rs = true ->
  junction_free rs a y = true ->
  forall A Y : text,
    (A <> [] -> last A 0%N = a) ->
    (Y <> [] -> hd 0%N Y = y) ->
    rpass rs nw pw ((A ++ Y : text), 0) =
    (fst (rpass rs (hdw Y nw) pw (A, 0)) ++
     fst (rpass rs nw (lastw pw A) (Y, 0)),
     snd (rpass rs (hdw Y nw) pw (A, 0)) +
     snd (rpass rs nw (lastw pw A) (Y, 0))).
Proof.
  induction rs as [|r rs IH]; intros Hok Hfree A Y Ha Hy; [reflexivity|].
  simpl in Hok, Hfree.
  apply andb_prop in Hok as [Hr Hok]. apply andb_prop in Hfree as [Hf Hfree].
  apply negb_true_iff in Hf.
  rewrite !pass_cons. cbn [fst snd].
  rewrite (scan_split r (rule_ok_lit r Hr) Y nw a y Hy Hf pw A Ha).
  cbn [fst snd].
  destruct (scan_ends r (hdw Y nw) pw A Hr) as (_ & AL & AE).
  destruct (scan_ends r nw (lastw pw A) Y Hr) as (YH & _ & YE).
  set (A1 := fst (rscan r (hdw Y nw) pw A)) in *.
  set (Y1 := fst (rscan r nw (lastw pw A) Y)) in *.
  rewrite (pass_shift rs nw pw (A1 ++ Y1)).
  rewrite (pass_shift rs (hdw Y nw) pw A1).
  rewrite (pass_shift rs nw (lastw pw A) Y1).
  cbn [fst snd].
  rewrite (IH Hok Hfree A1 Y1).
  - cbn [fst snd].
    rewrite (head_word_hd Y Y1 nw YH YE), (last_word_eq A A1 pw AL AE).
    f_equal. lia.
  - intros H1. rewrite AL. apply Ha. intros ->. now apply H1, AE.
  - intros H1. rewrite YH. apply Hy. intros ->. now apply H1, YE.
Qed.

End Split.

(** ** Windows whose neighbours do not matter *)

Section Neighbours.

Variable uni_alnum : char -> bool.

Local Abbreviation isw := (is_word uni_alnum).
Local Abbreviation hdw := (head_word uni_alnum).
Local Abbreviation tmatch := (tail_match uni_alnum).
Local Abbreviation rmatch := (matches uni_alnum).
Local Abbreviation lastw := (last_word uni_alnum).
Local Abbreviation rscan := (scan uni_alnum).
Local Abbreviation rpass := (pass uni_alnum).

(** A leading [\b] is followed, and a trailing [\b] preceded, by a word
    character of the literal. *)
Definition edges_ok (r : rule) : bool :=
  (if lead r then isw (hd 0%N (lit r)) else true) &&
  (if trail r then isw (last (lit r) 0%N) else true).

Lemma matches_pw (r : rule) (pw pw' : bool) (c : char) (s : text) (nw : bool) :
  lit r <> [] -> edges_ok r = true -> isw c = false ->
  rmatch r pw (c :: s) nw = rmatch r pw' (c :: s) nw.
Proof.
  intros Hn He Hc. unfold edges_ok in He. apply andb_prop in He as [He _].
  unfold matches. destruct (lit r) as [|x b]; [congruence|].
  cbn [tail_match]. destruct (lead r); [|reflexivity].
  simpl in He. destruct (c =? x)%N eqn:E.
  - apply N.eqb_eq in E. subst x. congruence.
  - now rewrite !andb_false_r.
Qed.

Lemma last_word_nonempty (pw pw' : bool) (l : text) :
  l <> [] -> lastw pw l = lastw pw' l.
Proof. destruct l; [congruence|reflexivity]. Qed.

Lemma scan_pw (r : rule) (nw pw pw' : bool) (s : text) :
  lit r <> [] -> edges_ok r = true -> hdw s false = false ->
  rscan r nw pw s = rscan r nw pw' s.
Proof.
  intros Hn He Hs. destruct s as [|c s]; [now rewrite !scan_nil|].
  simpl in Hs. pose proof (matches_pw r pw pw' c s nw Hn He Hs) as E.
  destruct (rmatch r pw (c :: s) nw) eqn:M.
  - destruct (matches_prefix _ _ _ _ _ M) as [rest Er].
    rewrite Er in *. rewrite !scan_hit by congruence.
    now rewrite (last_word_nonempty pw pw' (lit r) Hn).
  - rewrite !scan_copy by congruence. reflexivity.
Qed.

Lemma pass_pw (rs : list rule) (nw pw pw' : bool) :
  forallb rule_ok rs = true -> forallb edges_ok rs = true ->
  forall (s : text) (n : nat),
    hdw s false = false ->
    rpass rs nw pw (s, n) = rpass rs nw pw' (s, n).
Proof.
  induction rs as [|r rs IH]; intros Hok He s n Hs; [reflexivity|].
  simpl in Hok, He.
  apply andb_prop in Hok as [Hr Hok]. apply andb_prop in He as [Er He].
  rewrite !pass_cons. cbn [fst snd].
  rewrite (scan_pw r nw pw pw' s (rule_ok_lit r Hr) Er Hs).
  apply IH; auto.
  destruct (scan_ends uni_alnum r nw pw' s Hr) as (H1 & _ & H3).
  now rewrite (head_word_hd uni_alnum s _ false H1 H3).
Qed.

Lemma tail_match_nw (t : bool) (nw nw' : bool) (b : text) :
  forall x pw s,
    (t = true -> isw (last (x :: b) 0%N) = true) ->
    (s <> [] -> isw (last s 0%N) = false) ->
    tmatch t (x :: b) pw s nw = tmatch t (x :: b) pw s nw'.
Proof.
  induction b as [|x' b IH]; intros x pw s Ht Hs.
  - destruct s as [|c s]; [reflexivity|]. cbn [tail_match].
    destruct t; [|reflexivity].
    destruct s as [|c' s]; [|reflexivity].
    destruct (c =? x)%N eqn:E; [|reflexivity].
    apply N.eqb_eq in E. subst x.
    specialize (Ht eq_refl). specialize (Hs ltac:(discriminate)).
    simpl in Ht, Hs. congruence.
  - destruct s as [|c s]; [reflexivity|].
    change (tmatch t (x :: x' :: b) pw (c :: s) nw) with
      ((c =? x)%N && tmatch t (x' :: b) (isw c) s nw).
    change (tmatch t (x :: x' :: b) pw (c :: s) nw') with
      ((c =? x)%N && tmatch t (x' :: b) (isw c) s nw').
    rewrite (IH x' (isw c) s); [reflexivity|exact Ht|].
    intros H. rewrite <- Hs by discriminate.
    destruct s; [congruence|reflexivity].
Qed.

Lemma matches_nw (r : rule) (pw : bool) (s : text) (nw nw' : bool) :
  lit r <> [] -> edges_ok r = true ->
  (s <> [] -> isw (last s 0%N) = false) ->
  rmatch r pw s nw = rmatch r pw s nw'.
Proof.
  intros Hn He Hs. unfold edges_ok in He. apply andb_prop in He as [_ He].
  unfold matches. destruct (lit r) as [|x b] eqn:El; [congruence|].
  rewrite (tail_match_nw (trail r) nw nw' b x pw s).
  - destruct s as [|c s]; [|reflexivity].
    cbn [tail_match]. now rewrite !andb_false_r.
  - intros Ht. now rewrite Ht in He.
  - exact Hs.
Qed.

Lemma Rw_nw (r : rule) (nw nw' pw : bool) (s o : text) (k : nat) :
  lit r <> [] -> edges_ok r = true ->
  Rw uni_alnum r nw pw s o k ->
  (s <> [] -> isw (last s 0%N) = false) ->
  Rw uni_alnum r nw' pw s o k.
Proof.
  intros Hn He.
  induction 1 as [pw|pw c s o k M _ IH|pw rest o k M _ IH]; intros Hs.
  - constructor.
  - constructor.
    + now rewrite <- (matches_nw r pw (c :: s) nw nw' Hn He Hs).
    + apply IH. intros H. rewrite <- Hs by discriminate.
      destruct s; [congruence|reflexivity].
  - constructor.
    + now rewrite <- (matches_nw r pw (lit r ++ rest) nw nw' Hn He Hs).
    + apply IH. intros H.
      destruct (exists_last H) as (l' & z & ->).
      rewrite app_assoc, last_last in Hs. rewrite last_last. apply Hs.
      destruct (lit r ++ l'); discriminate.
Qed.

Lemma scan_nw (r : rule) (nw nw' pw : bool) (s : text) :
  lit r <> [] -> edges_ok r = true ->
  (s <> [] -> isw (last s 0%N) = false) ->
  rscan r nw pw s = rscan r nw' pw s.
Proof.
  intros Hn He Hs. symmetry.
  rewrite (surjective_pairing (rscan r nw pw s)).
  apply Rw_scan; [exact Hn|].
  apply (Rw_nw r nw nw' pw s _ _ Hn He); [|exact Hs].
  now apply scan_Rw.
Qed.

Lemma pass_nw (rs : list rule) (nw nw' pw : bool) :
  forallb rule_ok rs = true -> forallb edges_ok rs = true ->
  forall (s : text) (n : nat),
    (s <> [] -> isw (last s 0%N) = false) ->
    rpass rs nw pw (s, n) = rpass rs nw' pw (s, n).
Proof.
  induction rs as [|r rs IH]; intros Hok He s n Hs; [reflexivity|].
  simpl in Hok, He.
  apply andb_prop in Hok as [Hr Hok]. apply andb_prop in He as [Er He].
  rewrite !pass_cons. cbn [fst snd].
  rewrite (scan_nw r nw nw' pw s (rule_ok_lit r Hr) Er Hs).
  apply IH; auto.
  destruct (scan_ends uni_alnum r nw' pw s Hr) as (_ & H2 & H3).
  intros H. rewrite H2. apply Hs. intros ->. now apply H, H3.
Qed.

(** Characters that are next to each other in no literal. *)
Lemma adjacent_in (l : text) (a y : char) :
  adjacent l a y = true -> In a (removelast l) /\ In y (tl l).
Proof.
  induction l as [|x1 l IH]; [discriminate|].
  destruct l as [|x2 l]; [discriminate|].
  rewrite adjacent_cons. intros H. apply orb_prop in H as [H|H].
  - apply andb_prop in H as [H1 H2]. apply N.eqb_eq in H1, H2. subst.
    split; simpl; auto.
  - destruct (IH H) as [I1 I2]. split.
    + change (removelast (x1 :: x2 :: l)) with (x1 :: removelast (x2 :: l)).
      now right.
    + simpl. right. exact I2.
Qed.

Definition inner_chars_ok (except : char) (l : text) : bool :=
  forallb (fun c => isw c || (c =? except)%N) l.

Lemma junction_free_left (rs : list rule) (a y : char) :
  forallb (fun r => inner_chars_ok 46%N (removelast (lit r))) rs = true ->
  isw a = false -> a <> 46%N ->
  junction_free rs a y = true.
Proof.
  intros H Ha Hd. unfold junction_free. apply forallb_forall. intros r Hr.
  rewrite forallb_forall in H. specialize (H r Hr).
  unfold inner_chars_ok in H. rewrite forallb_forall in H.
  apply negb_true_iff. destruct (adjacent (lit r) a y) eqn:E; [|reflexivity].
  apply adjacent_in in E as [E _]. specialize (H a E).
  apply orb_prop in H as [H|H]; [congruence|].
  apply N.eqb_eq in H. contradiction.
Qed.

Lemma junction_free_right (rs : list rule) (a y : char) :
  forallb (fun r => inner_chars_ok 58%N (tl (lit r))) rs = true ->
  isw y = false -> y <> 58%N ->
  junction_free rs a y = true.
Proof.
  intros H Hy Hd. unfold junction_free. apply forallb_forall. intros r Hr.
  rewrite forallb_forall in H. specialize (H r Hr).
  unfold inner_chars_ok in H. rewrite forallb_forall in H.
  apply negb_true_iff. destruct (adjacent (lit r) a y) eqn:E; [|reflexivity].
  apply adjacent_in in E as [_ E]. specialize (H y E).
  apply orb_prop in H as [H|H]; [congruence|].
  apply N.eqb_eq in H. contradiction.
Qed.

Lemma junction_free_absent_left (rs : list rule) (a y : char) :
  forallb (fun r => negb (existsb (N.eqb a) (removelast (lit r)))) rs = true ->
  junction_free rs a y = true.
Proof.
  intros H. unfold junction_free. apply forallb_forall. intros r Hr.
  rewrite forallb_forall in H. specialize (H r Hr).
  apply negb_true_iff in H. apply negb_true_iff.
  destruct (adjacent (lit r) a y) eqn:E; [|reflexivity].
  apply adjacent_in in E as [E _].
  assert (X : existsb (N.eqb a) (removelast (lit r)) = true).
  { apply existsb_exists. exists a. split; [exact E|apply N.eqb_refl]. }
  congruence.
Qed.

Lemma junction_free_absent_right (rs : list rule) (a y : char) :
  forallb (fun r => negb (existsb (N.eqb y) (tl (lit r)))) rs = true ->
  junction_free rs a y = true.
Proof.
  intros H. unfold junction_free. apply forallb_forall. intros r Hr.
  rewrite forallb_forall in H. specialize (H r Hr).
  apply negb_true_iff in H. apply negb_true_iff.
  destruct (adjacent (lit r) a y) eqn:E; [|reflexivity].
  apply adjacent_in in E as [_ E].
  assert (X : existsb (N.eqb y) (tl (lit r)) = true).
  { apply existsb_exists. exists y. split; [exact E|apply N.eqb_refl]. }
  congruence.
Qed.

End Neighbours.

(** ** Facts about the tables, by evaluation *)

Section TableFacts.

Variable uni_alnum : char -> bool.

Local Abbreviation isw := (is_word uni_alnum).
Local Abbreviation hdw := (head_word uni_alnum).
Local Abbreviation lastw := (last_word uni_alnum).
Local Abbreviation rpass := (pass uni_alnum).

Lemma RULES_count : length RULES = 45.
Proof. reflexivity. Qed.

Lemma RULES_edges : forallb (edges_ok uni_alnum) RULES = true.
Proof. vm_compute. reflexivity. Qed.

(** Before its last character a literal has word characters and the dot;
    after its first, word characters and the colon. *)
Lemma RULES_inner_left :
  forallb (fun r => inner_chars_ok uni_alnum 46%N (removelast (lit r))) RULES
  = true.
Proof. vm_compute. reflexivity. Qed.

Lemma RULES_inner_right :
  forallb (fun r => inner_chars_ok uni_alnum 58%N (tl (lit r))) RULES = true.
Proof. vm_compute. reflexivity. Qed.

Lemma RULES_dot_first :
  forallb (fun r => negb (existsb (N.eqb 46%N) (tl (lit r)))) RULES = true.
Proof. vm_compute. reflexivity. Qed.

Lemma RULES_colon_last :
  forallb (fun r => negb (existsb (N.eqb 58%N) (removelast (lit r)))) RULES
  = true.
Proof. vm_compute. reflexivity. Qed.

Lemma RULES_no_digit_two :
  forallb (fun r => negb (existsb (N.eqb 50%N) (removelast (lit r)))) RULES
  = true.
Proof. vm_compute. reflexivity. Qed.

Lemma RULES_long : forallb (fun r => 2 <=? length (lit r)) RULES = true.
Proof. vm_compute. reflexivity. Qed.

(** The rewrite of a piece of a text, the word class of its neighbours
    given; [fix_content] is the case of no neighbours. *)
Definition rewrite_window (pw nw : bool) (t : text) : text * nat :=
  rpass RULES nw pw (t, 0).

Lemma fix_content_window (t : text) :
  fix_content uni_alnum t = rewrite_window false false t.
Proof. apply fix_content_pass. Qed.

Lemma window_single (pw nw : bool) (c : char) :
  rewrite_window pw nw [c] = ([c], 0).
Proof.
  unfold rewrite_window. apply pass_id.
  - intros r Hr. apply rule_ok_lit.
    pose proof RULES_rule_ok as H. rewrite forallb_forall in H. now apply H.
  - intros r Hr. pose proof RULES_long as H. rewrite forallb_forall in H.
    specialize (H r Hr). apply Nat.leb_le in H.
    cbn [has_match]. rewrite orb_false_r. unfold matches.
    destruct (lit r) as [|x [|x' b]]; try (simpl in H; lia).
    cbn [tail_match]. now rewrite !andb_false_r.
Qed.

Lemma window_split (pw nw : bool) (A Y : text) :
  junction_free RULES (last A 0%N) (hd 0%N Y) = true ->
  rewrite_window pw nw (A ++ Y) =
  (fst (rewrite_window pw (hdw Y nw) A) ++
   fst (rewrite_window (lastw pw A) nw Y),
   snd (rewrite_window pw (hdw Y nw) A) +
   snd (rewrite_window (lastw pw A) nw Y)).
Proof.
  intros H. unfold rewrite_window.
  apply (pass_split uni_alnum RULES nw pw (last A 0%N) (hd 0%N Y)
           RULES_rule_ok H); auto.
Qed.

(** A window that starts with a non-word character does not depend on what
    precedes it; one that ends with a non-word character does not depend on
    what follows. *)
Lemma window_pw (pw pw' nw : bool) (t : text) :
  isw (hd 0%N t) = false ->
  rewrite_window pw nw t = rewrite_window pw' nw t.
Proof.
  intros H. unfold rewrite_window.
  apply pass_pw; [apply RULES_rule_ok|apply RULES_edges|].
  destruct t; [reflexivity|exact H].
Qed.

Lemma window_nw (pw nw nw' : bool) (t : text) :
  isw (last t 0%N) = false ->
  rewrite_window pw nw t = rewrite_window pw nw' t.
Proof.
  intros H. unfold rewrite_window.
  apply pass_nw; [apply RULES_rule_ok|apply RULES_edges|].
  intros _. exact H.
Qed.

Lemma last_word_false (A : text) :
  isw (last A 0%N) = false -> lastw false A = false.
Proof.
  intros H. destruct A as [|c A]; [reflexivity|].
  now rewrite last_word_last by discriminate.
Qed.

Lemma head_word_false (B : text) :
  isw (hd 0%N B) = false -> hdw B false = false.
Proof. intros H. destruct B; [reflexivity|exact H]. Qed.

End TableFacts.

(** ** Word boundaries *)

Section Boundaries.

Variable uni_alnum : char -> bool.

Local Abbreviation isw := (is_word uni_alnum).
Local Abbreviation hdw := (head_word uni_alnum).
Local Abbreviation lastw := (last_word uni_alnum).
Local Abbreviation window := (rewrite_window uni_alnum).
Local Abbreviation fixc := (fix_content uni_alnum).

Lemma window_orderId2 (pw nw : bool) :
  window pw nw (codes ".orderId2") = (codes ".orderId2", 0).
Proof. destruct pw, nw; vm_compute; reflexivity. Qed.

Lemma window_orderId (pw : bool) :
  window pw false (codes ".orderId") = (codes ".order_id", 1).
Proof. destruct pw; vm_compute; reflexivity. Qed.

Lemma window_orderId_colon (pw nw : bool) :
  window pw nw (codes ".orderId:") = (codes ".order_id:", 1).
Proof. destruct pw, nw; vm_compute; reflexivity. Qed.

(** A text that starts with a dot is rewritten apart from what precedes
    it. *)
Lemma split_before_dot (A Y : text) (nw : bool) :
  hd 0%N Y = 46%N -> Y <> [] ->
  window false nw (A ++ Y) =
  (fst (fixc A) ++ fst (window (lastw false A) nw Y),
   snd (fixc A) + snd (window (lastw false A) nw Y)).
Proof.
  intros H HY. rewrite window_split.
  - replace (hdw Y nw) with false; [now rewrite fix_content_window|].
    destruct Y as [|c Y]; [congruence|]. simpl in H. subst c. reflexivity.
  - rewrite H. apply junction_free_absent_right, RULES_dot_first.
Qed.

(** A text that follows a colon is rewritten apart from it. *)
Lemma split_after_colon (B : text) :
  fixc (58%N :: B) = (58%N :: fst (fixc B), snd (fixc B)).
Proof.
  rewrite !fix_content_window.
  change (58%N :: B) with ([58%N] ++ B).
  rewrite window_split.
  - rewrite window_single. reflexivity.
  - apply junction_free_absent_left, RULES_colon_last.
Qed.

End Boundaries.

(** ** Identifiers that contain other identifiers *)

Section Routing.

Variable uni_alnum : char -> bool.

Local Abbreviation isw := (is_word uni_alnum).
Local Abbreviation hdw := (head_word uni_alnum).
Local Abbreviation lastw := (last_word uni_alnum).
Local Abbreviation window := (rewrite_window uni_alnum).
Local Abbreviation fixc := (fix_content uni_alnum).

(** A block [X] between two junctions that no match straddles. *)
Lemma block_in_context (X X' A B : text) (pw nw : bool) (T : text) :
  T = A ++ X ++ B ->
  junction_free RULES (last A 0%N) (hd 0%N (X ++ B)) = true ->
  junction_free RULES (last X 0%N) (hd 0%N B) = true ->
  hdw (X ++ B) false = nw ->
  lastw false A = pw ->
  window pw (hdw B false) X = (X', 1) ->
  fixc T =
  (fst (window false nw A) ++ X' ++ fst (window (lastw pw X) false B),
   snd (window false nw A) + 1 + snd (window (lastw pw X) false B)).
Proof.
  intros -> J1 J2 Hn Hp HX.
  rewrite fix_content_window, window_split by exact J1.
  rewrite Hn, Hp, window_split by exact J2.
  rewrite HX. cbn [fst snd]. now rewrite Nat.add_assoc.
Qed.

Lemma fix_snoc_dot (A : text) :
  fixc (A ++ [46%N]) = (fst (fixc A) ++ [46%N], snd (fixc A)).
Proof.
  rewrite fix_content_window, split_before_dot; [|reflexivity|discriminate].
  rewrite window_single. cbn [fst snd]. now rewrite Nat.add_0_r.
Qed.

Section Word.

(** [W] is an identifier the rewrite turns into [W'], also after a dot
    and before a colon. *)
Variables W W' : text.
Hypothesis W_first : isw (hd 0%N W) = true.
Hypothesis W_last : isw (last W 0%N) = true.
Hypothesis W_nonempty : W <> [].
Hypothesis W_bare : window false false W = (W', 1).
Hypothesis W_member : forall pw, window pw false (46%N :: W) = (46%N :: W', 1).
Hypothesis W_key :
  forall nw, window false nw (W ++ [58%N]) = (W' ++ [58%N], 1).
Hypothesis W_both :
  forall pw nw,
    window pw nw (46%N :: W ++ [58%N]) = (46%N :: W' ++ [58%N], 1).

Lemma last_word_W (pw : bool) (l : text) : lastw pw (l ++ W) = true.
Proof.
  rewrite last_word_app, last_word_last by exact W_nonempty. exact W_last.
Qed.

(** The text before [W] ends, and the text after it starts, with a
    character that is not a word character (or is empty). *)
Lemma word_in_context (A B : text) :
  isw (last A 0%N) = false -> isw (hd 0%N B) = false ->
  fixc (A ++ W ++ B) =
  (fst (fixc A) ++ W' ++ fst (fixc B), snd (fixc A) + 1 + snd (fixc B)).
Proof.
  intros HA HB.
  destruct (N.eq_dec (last A 0%N) 46) as [Ad|Ad];
    destruct (N.eq_dec (hd 0%N B) 58) as [Bc|Bc].
  - (* .W: *)
    destruct (@exists_last _ A) as (A1 & a & ->);
      [intros ->; discriminate|].
    rewrite last_last in Ad. subst a.
    destruct B as [|b B1]; [discriminate|]. simpl in Bc. subst b.
    rewrite fix_snoc_dot, split_after_colon. cbn [fst snd].
    etransitivity.
    { apply (block_in_context (46%N :: W ++ [58%N]) (46%N :: W' ++ [58%N])
               A1 B1 (lastw false A1) false).
      - rewrite <- !app_assoc. simpl. now rewrite <- !app_assoc.
      - apply junction_free_absent_right, RULES_dot_first.
      - change (46%N :: W ++ [58%N]) with ((46%N :: W) ++ [58%N]).
        rewrite last_last. apply junction_free_absent_left, RULES_colon_last.
      - reflexivity.
      - reflexivity.
      - apply W_both. }
    rewrite <- !fix_content_window.
    replace (lastw (lastw false A1) (46%N :: W ++ [58%N])) with false
      by (change (46%N :: W ++ [58%N]) with ((46%N :: W) ++ [58%N]);
          now rewrite last_word_snoc).
    rewrite <- fix_content_window.
    apply f_equal2; [|reflexivity].
    rewrite <- !app_assoc. simpl. now rewrite <- !app_assoc.
  - (* .W *)
    destruct (@exists_last _ A) as (A1 & a & ->);
      [intros ->; discriminate|].
    rewrite last_last in Ad. subst a.
    rewrite fix_snoc_dot. cbn [fst snd].
    etransitivity.
    { apply (block_in_context (46%N :: W) (46%N :: W') A1 B
               (lastw false A1) false).
      - now rewrite <- !app_assoc.
      - apply junction_free_absent_right, RULES_dot_first.
      - apply (junction_free_right uni_alnum);
          [apply RULES_inner_right|exact HB|exact Bc].
      - reflexivity.
      - reflexivity.
      - rewrite (head_word_false uni_alnum B HB). apply W_member. }
    rewrite <- !fix_content_window.
    replace (lastw (lastw false A1) (46%N :: W)) with true
      by (symmetry; apply (last_word_W _ [46%N])).
    rewrite (window_pw uni_alnum true false false B HB).
    rewrite <- fix_content_window.
    apply f_equal2; [|reflexivity]. now rewrite <- !app_assoc.
  - (* W: *)
    destruct B as [|b B1]; [discriminate|]. simpl in Bc. subst b.
    rewrite split_after_colon. cbn [fst snd].
    etransitivity.
    { apply (block_in_context (W ++ [58%N]) (W' ++ [58%N]) A B1 false true).
      - now rewrite <- !app_assoc.
      - apply (junction_free_left uni_alnum);
          [apply RULES_inner_left|exact HA|exact Ad].
      - rewrite last_last. apply junction_free_absent_left, RULES_colon_last.
      - rewrite <- app_assoc. destruct W; [congruence|]. exact W_first.
      - now apply last_word_false.
      - apply W_key. }
    rewrite (window_nw uni_alnum false true false A HA).
    rewrite <- !fix_content_window.
    replace (lastw false (W ++ [58%N])) with false
      by now rewrite last_word_snoc.
    rewrite <- fix_content_window.
    apply f_equal2; [|reflexivity]. now rewrite <- !app_assoc.
  - (* W *)
    etransitivity.
    { apply (block_in_context W W' A B false true).
      - reflexivity.
      - apply (junction_free_left uni_alnum);
          [apply RULES_inner_left|exact HA|exact Ad].
      - apply (junction_free_right uni_alnum);
          [apply RULES_inner_right|exact HB|exact Bc].
      - destruct W; [congruence|]. exact W_first.
      - now apply last_word_false.
      - rewrite (head_word_false uni_alnum B HB). exact W_bare. }
    rewrite (window_nw uni_alnum false true false A HA).
    rewrite <- !fix_content_window.
    replace (lastw false W) with true
      by (symmetry; apply (last_word_W false [])).
    rewrite (window_pw uni_alnum true false false B HB).
    now rewrite <- fix_content_window.
Qed.

End Word.

Lemma routingStepId_in_context (A B : text) :
  isw (last A 0%N) = false -> isw (hd 0%N B) = false ->
  fixc (A ++ codes "routingStepId" ++ B) =
  (fst (fixc A) ++ codes "routing_step_id" ++ fst (fixc B),
   snd (fixc A) + 1 + snd (fixc B)).
Proof.
  apply word_in_context; try reflexivity; try discriminate.
  - intros []; vm_compute; reflexivity.
  - intros []; vm_compute; reflexivity.
  - intros [] []; vm_compute; reflexivity.
Qed.

Lemma routeTemplateId_in_context (A B : text) :
  isw (last A 0%N) = false -> isw (hd 0%N B) = false ->
  fixc (A ++ codes "routeTemplateId" ++ B) =
  (fst (fixc A) ++ codes "route_template_id" ++ fst (fixc B),
   snd (fixc A) + 1 + snd (fixc B)).
Proof.
  apply word_in_context; try reflexivity; try discriminate.
  - intros []; vm_compute; reflexivity.
  - intros []; vm_compute; reflexivity.
  - intros [] []; vm_compute; reflexivity.
Qed.

End Routing.

(** ** [fix_file] and [main] *)

Section FileTheorems.

Context {P : Platform}.
Variable uni_alnum : char -> bool.

Local Abbreviation fixc := (fix_content uni_alnum).

Lemma fix_file_same (path : text) (w : world) (t : text) :
  read_text (disk w) path = inr t -> fst (fixc t) = t ->
  fix_file uni_alnum path w = (inr 0, w).
Proof.
  intros H E. rewrite fix_file_cases, (fix_file_body_same _ _ _ _ H E).
  destruct (Nat.eq_dec (snd (fixc t)) 0) as [->|N]; [reflexivity|].
  now apply fix_content_count_change in N.
Qed.

Lemma fix_file_changed (path : text) (w : world) (t : text) :
  read_text (disk w) path = inr t -> fst (fixc t) <> t ->
  fix_file uni_alnum path w =
  let '(d, r) := write_text (disk w) path (fst (fixc t)) in
  let w' := mkWorld d (stdout w) (writes w ++ [(path, fst (fixc t))]) in
  match r with
  | Some e =>
      match stdout_write (error_line path e) with
      | Some e' => (inl e', w')
      | None =>
          (inr 0,
           mkWorld d (stdout w ++ [error_line path e])
             (writes w ++ [(path, fst (fixc t))]))
      end
  | None => (inr (snd (fixc t)), w')
  end.
Proof.
  intros H E. rewrite fix_file_cases, (fix_file_body_write _ _ _ _ H E).
  cbv zeta. destruct (write_text (disk w) path (fst (fixc t))) as [d [e|]];
    reflexivity.
Qed.

Lemma fix_file_read_error (path : text) (w : world) (e : exn) :
  read_text (disk w) path = inl e ->
  fix_file uni_alnum path w =
  match stdout_write (error_line path e) with
  | Some e' => (inl e', w)
  | None =>
      (inr 0, mkWorld (disk w) (stdout w ++ [error_line path e]) (writes w))
  end.
Proof.
  intros H. rewrite fix_file_cases.
  now rewrite (fix_file_body_read_error uni_alnum path w e H).
Qed.

Lemma snoc_neq {A : Type} (l : list A) (x : A) : l ++ [x] <> l.
Proof.
  intros H. apply (f_equal (@length A)) in H.
  rewrite length_app in H. simpl in H. lia.
Qed.

Lemma endswith_spec (s suffix : text) :
  endswith s suffix = true <-> exists stem, s = stem ++ suffix.
Proof.
  unfold endswith. rewrite andb_true_iff, Nat.leb_le, text_eqb_eq. split.
  - intros [_ E]. exists (firstn (length s - length suffix) s).
    rewrite <- E at 2. symmetry. apply firstn_skipn.
  - intros [stem ->]. rewrite length_app. split; [lia|].
    replace (length stem + length suffix - length suffix) with (length stem)
      by lia.
    rewrite skipn_app, skipn_all, Nat.sub_diag. reflexivity.
Qed.

Lemma is_source_file_spec (file : text) :
  is_source_file file = true <->
  (exists stem, file = stem ++ codes ".ts") \/
  (exists stem, file = stem ++ codes ".tsx").
Proof.
  unfold is_source_file. cbn [existsb].
  rewrite orb_false_r, orb_true_iff, !endswith_spec. reflexivity.
Qed.

Lemma candidates_spec (triples : list (text * list text * list text))
    (path : text) :
  In path (candidates triples) <->
  exists root dirs files file,
    In (root, dirs, files) triples /\ In file files /\
    is_source_file file = true /\ path = path_join root file.
Proof.
  unfold candidates. rewrite in_flat_map. split.
  - intros ([[root dirs] files] & Ht & Hp).
    apply in_map_iff in Hp as (file & <- & Hf).
    apply filter_In in Hf as [Hf Hs].
    exists root, dirs, files, file. auto.
  - intros (root & dirs & files & file & Ht & Hf & Hs & ->).
    exists (root, dirs, files). split; [exact Ht|].
    apply in_map, filter_In. auto.
Qed.


End FileTheorems.

(** ** What [fix_file] and [main] write and print *)

Section Traces.

Context {P : Platform}.
Variable uni_alnum : char -> bool.

Local Abbreviation fixc := (fix_content uni_alnum).

(** The ways a call of [fix_file] can go. *)
Lemma fix_file_outcome (path : text) (w : world) :
  (exists e,
     read_text (disk w) path = inl e /\
     fix_file uni_alnum path w =
     match stdout_write (error_line path e) with
     | Some e' => (inl e', w)
     | None =>
         (inr 0,
          mkWorld (disk w) (stdout w ++ [error_line path e]) (writes w))
     end)
  \/
  (exists t,
     read_text (disk w) path = inr t /\ fst (fixc t) = t /\
     fix_file uni_alnum path w = (inr 0, w)) \/
  (exists t d r,
     read_text (disk w) path = inr t /\ fst (fixc t) <> t /\
     write_text (disk w) path (fst (fixc t)) = (d, r) /\
     fix_file uni_alnum path w =
     match r with
     | Some e =>
         match stdout_write (error_line path e) with
         | Some e' =>
             (inl e',
              mkWorld d (stdout w) (writes w ++ [(path, fst (fixc t))]))
         | None =>
             (inr 0,
              mkWorld d (stdout w ++ [error_line path e])
                (writes w ++ [(path, fst (fixc t))]))
         end
     | None =>
         (inr (snd (fixc t)),
          mkWorld d (stdout w) (writes w ++ [(path, fst (fixc t))]))
     end).
Proof.
  destruct (read_text (disk w) path) as [e|t] eqn:R.
  - left. exists e. split; [reflexivity|].
    exact (fix_file_read_error uni_alnum path w e R).
  - right.
    destruct (list_eq_dec N.eq_dec (fst (fixc t)) t) as [E|E].
    + left. exists t. repeat split; auto.
      exact (fix_file_same uni_alnum path w t R E).
    + right.
      destruct (write_text (disk w) path (fst (fixc t))) as [d r] eqn:W.
      exists t, d, r. repeat split; auto.
      rewrite (fix_file_changed uni_alnum path w t R E), W.
      reflexivity.
Qed.

Lemma error_line_kind (path : text) (e : exn) :
  is_error_line (error_line path e) = true /\
  is_progress_line (error_line path e) = false.
Proof. split; reflexivity. Qed.

Lemma progress_line_kind (n : nat) (path : text) :
  is_progress_line
    (codes "Fixed " ++ str_nat n ++ codes " patterns in " ++ path) = true.
Proof. reflexivity. Qed.

Ltac trace_side :=
  intros;
  try match goal with
      | H : inr _ = inr _ |- _ => injection H as <-
      end;
  try match goal with
      | H : In _ [] |- _ => destruct H
      | H : In _ [_] |- _ => destruct H as [<-|[]]
      end;
  auto; try discriminate; try congruence; try reflexivity;
  try (cbn [length]; lia).

(** What one call adds to the writes and to the output. *)
Lemma fix_file_trace (path : text) (w : world) :
  exists r w' ws out,
    fix_file uni_alnum path w = (r, w') /\
    writes w' = writes w ++ ws /\ stdout w' = stdout w ++ out /\
    (forall pc, In pc ws -> fst pc = path) /\
    length ws <= 1 /\ length out <= 1 /\
    (forall line, In line out ->
       is_error_line line = true /\ is_progress_line line = false) /\
    (forall n, r = inr n -> n <> 0 -> length ws = 1 /\ out = []).
Proof.
  destruct (fix_file_outcome path w)
    as [(e & _ & E)|[(t & _ & _ & E)|(t & d & r & _ & N & _ & E)]].
  - destruct (stdout_write (error_line path e)) as [e'|].
    + exists (inl e'), w, [], []. rewrite !app_nil_r.
      repeat split; trace_side.
    + exists (inr 0),
        (mkWorld (disk w) (stdout w ++ [error_line path e]) (writes w)),
        [], [error_line path e].
      cbn [writes stdout]. rewrite app_nil_r.
      repeat split; trace_side.
  - exists (inr 0), w, [], []. rewrite !app_nil_r.
    repeat split; trace_side.
  - destruct r as [e|]; [destruct (stdout_write (error_line path e)) as [e'|]|].
    + exists (inl e'),
        (mkWorld d (stdout w) (writes w ++ [(path, fst (fixc t))])),
        [(path, fst (fixc t))], [].
      cbn [writes stdout]. rewrite app_nil_r.
      repeat split; trace_side.
    + exists (inr 0),
        (mkWorld d (stdout w ++ [error_line path e])
           (writes w ++ [(path, fst (fixc t))])),
        [(path, fst (fixc t))], [error_line path e].
      cbn [writes stdout].
      repeat split; trace_side.
    + exists (inr (snd (fixc t))),
        (mkWorld d (stdout w) (writes w ++ [(path, fst (fixc t))])),
        [(path, fst (fixc t))], [].
      cbn [writes stdout]. rewrite app_nil_r.
      repeat split; trace_side.
Qed.

Lemma filter_progress_errors (out : list text) :
  (forall line, In line out ->
     is_error_line line = true /\ is_progress_line line = false) ->
  filter is_progress_line out = [].
Proof.
  induction out as [|l out IH]; intros H; [reflexivity|].
  cbn [filter]. rewrite (proj2 (H l (or_introl eq_refl))).
  apply IH. intros line Hl. apply H. now right.
Qed.

(** What the driver adds to the writes and to the output. *)
Lemma drive_trace (paths : list text) :
  forall (st : nat * nat) (w : world),
    exists r w' ws out,
      drive uni_alnum paths st w = (r, w') /\
      writes w' = writes w ++ ws /\ stdout w' = stdout w ++ out /\
      (forall pc, In pc ws -> In (fst pc) paths) /\
      length ws <= length paths /\ length out <= length paths /\
      (forall line, In line out ->
         is_error_line line = true \/ is_progress_line line = true) /\
      filter is_progress_line out =
      progress_lines paths (results uni_alnum paths w) /\
      (forall st', r = inr st' -> snd st' - snd st <= length ws).
Proof.
  induction paths as [|p ps IH]; intros st w.
  - exists (inr st), w, [], []. rewrite !app_nil_r.
    conj; trace_side.
  - cbn [drive results].
    destruct (fix_file_trace p w)
      as (r1 & w1 & ws1 & out1 & E & Ew & Eo & Hp & Lw & Lo & Ke & Ln).
    rewrite E.
    assert (Hin : forall (ws : list (text * text)),
              (forall pc, In pc ws -> In (fst pc) ps) ->
              forall pc, In pc (ws1 ++ ws) -> In (fst pc) (p :: ps)).
    { intros ws Hp' pc Hpc. apply in_app_or in Hpc as [Hpc|Hpc].
      - left. symmetry. now apply Hp.
      - right. now apply Hp'. }
    assert (Hk : forall (out : list text),
              (forall line, In line out ->
                 is_error_line line = true \/ is_progress_line line = true) ->
              forall line, In line (out1 ++ out) ->
                is_error_line line = true \/ is_progress_line line = true).
    { intros out Hk line Hl. apply in_app_or in Hl as [Hl|Hl].
      - left. now apply Ke.
      - now apply Hk. }
    pose proof (filter_progress_errors out1 Ke) as F1.
    destruct r1 as [e|n].
    { exists (inl e), w1, ws1, out1. rewrite F1.
      conj;
        [reflexivity|exact Ew|exact Eo| |cbn [length]; lia|cbn [length]; lia
        | |reflexivity|discriminate].
      - intros pc Hpc. left. symmetry. now apply Hp.
      - intros line Hl. left. now apply Ke. }
    destruct n as [|n].
    + cbn [Nat.eqb].
      destruct (IH st w1)
        as (r & w' & ws & out & E' & Ew' & Eo' & Hp' & Lw' & Lo' & Hk'
            & F' & Ls).
      exists r, w', (ws1 ++ ws), (out1 ++ out).
      rewrite E', Ew', Eo', Ew, Eo, <- !app_assoc, !length_app.
      rewrite filter_app, F1, F'.
      conj;
        [reflexivity|reflexivity|reflexivity|now apply Hin
        |cbn [length]; lia|cbn [length]; lia|now apply Hk|reflexivity|].
      intros st' Er. specialize (Ls st' Er). lia.
    + cbn [Nat.eqb].
      destruct (Ln (S n) eq_refl ltac:(discriminate)) as [L1 ->].
      rewrite app_nil_r in Eo.
      destruct (stdout_write _) as [e|].
      { exists (inl e), w1, ws1, []. rewrite app_nil_r.
        conj;
          [reflexivity|exact Ew|exact Eo| |cbn [length]; lia
          |cbn [length]; lia|intros line []|reflexivity|discriminate].
        intros pc Hpc. left. symmetry. now apply Hp. }
      match goal with
      | |- context [drive uni_alnum ps ?st2 ?w2] =>
          destruct (IH st2 w2)
            as (r & w' & ws & out & E' & Ew' & Eo' & Hp' & Lw' & Lo' & Hk'
                & F' & Ls)
      end.
      exists r, w', (ws1 ++ ws),
        ((codes "Fixed " ++ str_nat (S n) ++ codes " patterns in " ++ p)
         :: out).
      conj.
      * exact E'.
      * rewrite Ew'. cbn [writes]. rewrite Ew, <- app_assoc. reflexivity.
      * rewrite Eo'. cbn [stdout]. rewrite Eo, <- app_assoc. reflexivity.
      * now apply Hin.
      * rewrite length_app. cbn [length]. lia.
      * cbn [length]. lia.
      * intros line [<-|Hl]; [right; reflexivity|now apply Hk'].
      * cbn [filter progress_lines combine flat_map snd fst Nat.eqb].
        rewrite progress_line_kind, F'. reflexivity.
      * intros st' Er. specialize (Ls st' Er). cbn [snd] in Ls.
        rewrite length_app. lia.
Qed.

Lemma fst_of_eq {A B : Type} (p : A * B) (a : A) (b : B) :
  p = (a, b) -> fst p = a.
Proof. intros ->. reflexivity. Qed.



End Traces.

(** * The properties of the specification *)

(** C1.  The rewrite is idempotent: applied to its own output, the three
    loops of [fix_file] return the same text and the change count 0. *)
Theorem fix_content_idempotent (uni_alnum : char -> bool) (t : text) :
  fix_content uni_alnum (fst (fix_content uni_alnum t)) =
  (fst (fix_content uni_alnum t), 0).
Proof.
  rewrite !fix_content_pass.
  apply pass_idempotent, RULES_ok.
Qed.


(** C5.  [const userId = order.orderId;] becomes
    [const user_id = order.order_id;] with change count 2. *)
Theorem scenario_member_and_variable (uni_alnum : char -> bool) :
  fix_content uni_alnum (codes "const userId = order.orderId;") =
  (codes "const user_id = order.order_id;", 2).
Proof. vm_compute. reflexivity. Qed.

(** C6.  [{ isActive: true, standardSpec: x }] becomes
    [{ is_active: true, standard_spec: x }] with change count 2. *)
Theorem scenario_object_keys (uni_alnum : char -> bool) :
  fix_content uni_alnum (codes "{ isActive: true, standardSpec: x }") =
  (codes "{ is_active: true, standard_spec: x }", 2).
Proof. vm_compute. reflexivity. Qed.

(** C3.  An occurrence of [.orderId2] is left unchanged, whatever surrounds
    it: the text before it is rewritten as a text of its own, the text after
    it as the continuation of an identifier.  An occurrence of [.orderId]
    followed by a character that is not a word character, or by the end of
    the text, becomes [.order_id]. *)
Theorem boundary_correctness (uni_alnum : char -> bool) (A B : text) :
  (exists B' k,
     fix_content uni_alnum (codes "2" ++ B) = (codes "2" ++ B', k) /\
     fix_content uni_alnum (A ++ codes ".orderId2" ++ B) =
     (fst (fix_content uni_alnum A) ++ codes ".orderId2" ++ B',
      snd (fix_content uni_alnum A) + k)) /\
  (forall c : char,
     is_word uni_alnum c = false ->
     fix_content uni_alnum (A ++ codes ".orderId" ++ c :: B) =
     (fst (fix_content uni_alnum A) ++ codes ".order_id" ++
      fst (fix_content uni_alnum (c :: B)),
      snd (fix_content uni_alnum A) + 1 +
      snd (fix_content uni_alnum (c :: B)))) /\
  fix_content uni_alnum (A ++ codes ".orderId") =
  (fst (fix_content uni_alnum A) ++ codes ".order_id",
   snd (fix_content uni_alnum A) + 1).
Proof.
  split; [|split].
  - exists (fst (rewrite_window uni_alnum true false B)),
      (snd (rewrite_window uni_alnum true false B)).
    split.
    + change (codes "2") with [50%N].
      rewrite fix_content_window, window_split.
      * rewrite window_single. reflexivity.
      * apply junction_free_absent_left, RULES_no_digit_two.
    + rewrite fix_content_window, split_before_dot;
        [|reflexivity|discriminate].
      rewrite window_split.
      * rewrite window_orderId2. cbn [fst snd].
        replace (last_word uni_alnum (last_word uni_alnum false A)
                   (codes ".orderId2")) with true by reflexivity.
        now rewrite Nat.add_0_l.
      * apply junction_free_absent_left, RULES_no_digit_two.
  - intros c Hc. destruct (N.eq_dec c 58) as [->|Hcolon].
    + rewrite split_after_colon.
      change (codes ".orderId" ++ 58%N :: B) with (codes ".orderId:" ++ B).
      rewrite fix_content_window, split_before_dot;
        [|reflexivity|discriminate].
      rewrite window_split.
      * rewrite window_orderId_colon. cbn [fst snd].
        replace (last_word uni_alnum (last_word uni_alnum false A)
                   (codes ".orderId:")) with false by reflexivity.
        rewrite <- fix_content_window.
        change (codes ".order_id:") with (codes ".order_id" ++ [58%N]).
        rewrite <- !app_assoc, Nat.add_assoc. reflexivity.
      * apply junction_free_absent_left, RULES_colon_last.
    + rewrite fix_content_window, split_before_dot;
        [|reflexivity|discriminate].
      rewrite window_split.
      * replace (head_word uni_alnum (c :: B) false) with false
          by (symmetry; exact Hc).
        rewrite window_orderId. cbn [fst snd].
        replace (last_word uni_alnum (last_word uni_alnum false A)
                   (codes ".orderId")) with true by reflexivity.
        rewrite (window_pw uni_alnum true false false (c :: B) Hc).
        rewrite <- (fix_content_window uni_alnum (c :: B)).
        now rewrite Nat.add_assoc.
      * apply (junction_free_right uni_alnum);
          [apply RULES_inner_right|exact Hc|exact Hcolon].
  - rewrite fix_content_window, split_before_dot;
      [|reflexivity|discriminate].
    now rewrite window_orderId.
Qed.

Lemma boundary_correctness_witness :
  is_word no_unicode 59%N = false /\
  fix_content no_unicode (codes "a" ++ codes ".orderId" ++ 59%N :: codes " b")
  = (fst (fix_content no_unicode (codes "a")) ++ codes ".order_id" ++
     fst (fix_content no_unicode (59%N :: codes " b")),
     snd (fix_content no_unicode (codes "a")) + 1 +
     snd (fix_content no_unicode (59%N :: codes " b"))).
Proof.
  split; [reflexivity|].
  apply (proj1 (proj2 (boundary_correctness no_unicode (codes "a")
                         (codes " b")))).
  reflexivity.
Defined.

(** C4.  The identifiers [routingStepId] and [routeTemplateId], one after
    the other with a separator [c] between them, become [routing_step_id] and
    [route_template_id], whatever text [A] precedes and [B] follows them, as
    long as each stands as a word of its own (its neighbours are not word
    characters); these are the only two replacements between [A] and [B].
    In the text [routingStepId routeTemplateId] the two rules for these
    names find one match each and every other rule finds none. *)
Theorem no_cross_contamination (uni_alnum : char -> bool) :
  (forall (A B : text) (c : char),
     is_word uni_alnum (last A 0%N) = false ->
     is_word uni_alnum (hd 0%N B) = false ->
     is_word uni_alnum c = false ->
     fix_content uni_alnum
       (A ++ codes "routingStepId" ++ c :: codes "routeTemplateId" ++ B) =
     (fst (fix_content uni_alnum A) ++ codes "routing_step_id" ++
      c :: codes "route_template_id" ++ fst (fix_content uni_alnum B),
      snd (fix_content uni_alnum A) + 2 + snd (fix_content uni_alnum B))) /\
  match_counts uni_alnum (codes "routingStepId routeTemplateId") =
  repeat 0 33 ++ repeat 0 7 ++ [1; 1] ++ repeat 0 3.
Proof.
  split; [|vm_compute; reflexivity].
  intros A B c HA HB Hc.
  rewrite routingStepId_in_context by assumption.
  change (c :: codes "routeTemplateId" ++ B)
    with ([c] ++ codes "routeTemplateId" ++ B).
  rewrite routeTemplateId_in_context by assumption.
  rewrite (fix_content_window uni_alnum [c]), window_single. cbn [fst snd].
  apply f_equal2; [reflexivity|lia].
Qed.

Lemma no_cross_contamination_witness :
  (is_word no_unicode (last (codes "f(a.") 0%N) = false /\
   is_word no_unicode (hd 0%N (codes ": 1);")) = false /\
   is_word no_unicode 44%N = false) /\
  fix_content no_unicode
    (codes "f(a." ++ codes "routingStepId" ++
     44%N :: codes "routeTemplateId" ++ codes ": 1);") =
  (fst (fix_content no_unicode (codes "f(a.")) ++ codes "routing_step_id" ++
   44%N :: codes "route_template_id" ++
   fst (fix_content no_unicode (codes ": 1);")),
   snd (fix_content no_unicode (codes "f(a.")) + 2 +
   snd (fix_content no_unicode (codes ": 1);"))).
Proof.
  split.
  - repeat split; reflexivity.
  - apply (proj1 (no_cross_contamination no_unicode)); reflexivity.
Defined.

(** C7.  A text in which no pattern is found is returned as it is, with
    change count 0; and whenever the rewritten text is the original one,
    [fix_file] returns 0 and leaves the world as it was: no write is
    requested, the file system is the same, nothing is printed. *)
Theorem no_op_stability {P : Platform} (uni_alnum : char -> bool)
    (path : text) (w : world) (t : text) :
  (unmatched uni_alnum ALL_PATTERNS t = true ->
   fix_content uni_alnum t = (t, 0)) /\
  (read_text (disk w) path = inr t ->
   unmatched uni_alnum ALL_PATTERNS t = true ->
   fix_file uni_alnum path w = (inr 0, w)) /\
  (read_text (disk w) path = inr t ->
   fst (fix_content uni_alnum t) = t ->
   fix_file uni_alnum path w = (inr 0, w)).
Proof.
  split; [apply fix_content_unmatched|]. split.
  - intros H U. apply (fix_file_same uni_alnum path w t H).
    now rewrite (fix_content_unmatched uni_alnum t U).
  - apply fix_file_same.
Qed.

Lemma no_op_stability_witness :
  unmatched no_unicode ALL_PATTERNS (codes "let x = 1;") = true /\
  Mem.read Mem.sample (codes "src/b.tsx") = inr (codes "let x = 1;") /\
  fst (fix_content no_unicode (codes "let x = 1;")) = codes "let x = 1;" /\
  fix_content no_unicode (codes "let x = 1;") = (codes "let x = 1;", 0) /\
  @fix_file Mem.platform no_unicode (codes "src/b.tsx") Mem.start =
  (inr 0, Mem.start).
Proof.
  pose proof (@no_op_stability Mem.platform no_unicode (codes "src/b.tsx")
                Mem.start (codes "let x = 1;")) as (H1 & H2 & H3).
  split; [reflexivity|].
  split; [reflexivity|]. split; [reflexivity|].
  split; [exact (H1 eq_refl)|].
  exact (H2 eq_refl eq_refl).
Defined.







(** A write that raises: it was requested and has emptied the file, yet
    [fix_file] returns 0. *)
Lemma write_without_count :
  fst (@fix_file Mem.platform no_unicode (codes "src/d.ts") Mem.start) =
  inr 0 /\
  writes (snd (@fix_file Mem.platform no_unicode (codes "src/d.ts")
                 Mem.start)) =
  [(codes "src/d.ts", codes "user_id")] /\
  Mem.read Mem.sample (codes "src/d.ts") = inr (codes "userId") /\
  Mem.read (disk (snd (@fix_file Mem.platform no_unicode (codes "src/d.ts")
                         Mem.start)))
    (codes "src/d.ts") = inr [] /\
  ~ @write_iff_nonzero_return Mem.platform no_unicode (codes "src/d.ts")
      Mem.start.
Proof.
  repeat split; try (vm_compute; reflexivity).
  unfold write_iff_nonzero_return. intros [H _].
  assert (W : writes (snd (@fix_file Mem.platform no_unicode
                             (codes "src/d.ts") Mem.start))
              <> writes Mem.start) by (vm_compute; discriminate).
  destruct (H W) as (n & E & N).
  vm_compute in E. congruence.
Qed.

(** C10, amended.  The change count is not zero exactly when the rewritten
    text differs from the original.  For a file that is read: with a count
    of zero nothing is written and 0 is returned; with a count that is not
    zero the write of the rewritten text to the file is attempted, and the
    count is returned when the write does not raise; when it raises, the
    error line is printed and 0 is returned, or the exception of that print
    leaves [fix_file], and the count is not returned.  A file that is not
    read gives no write and no count.  So a return that is not zero is the
    count, and comes after a write that did not raise. *)
Theorem count_iff_changed {P : Platform} (uni_alnum : char -> bool)
    (path : text) (w : world) (t : text) :
  (snd (fix_content uni_alnum t) <> 0 <-> fst (fix_content uni_alnum t) <> t)
  /\
  (read_text (disk w) path = inr t ->
   (snd (fix_content uni_alnum t) = 0 ->
    fix_file uni_alnum path w = (inr 0, w)) /\
   (snd (fix_content uni_alnum t) <> 0 ->
    writes (snd (fix_file uni_alnum path w)) =
    writes w ++ [(path, fst (fix_content uni_alnum t))] /\
    disk (snd (fix_file uni_alnum path w)) =
    fst (write_text (disk w) path (fst (fix_content uni_alnum t))) /\
    (snd (write_text (disk w) path (fst (fix_content uni_alnum t))) = None ->
     fst (fix_file uni_alnum path w) = inr (snd (fix_content uni_alnum t)) /\
     stdout (snd (fix_file uni_alnum path w)) = stdout w) /\
    (forall e,
       snd (write_text (disk w) path (fst (fix_content uni_alnum t))) =
       Some e ->
       match
         stdout_write
           (codes "Error processing " ++ path ++ codes ": " ++ exn_str e)
       with
       | None =>
           fst (fix_file uni_alnum path w) = inr 0 /\
           stdout (snd (fix_file uni_alnum path w)) =
           stdout w ++
           [codes "Error processing " ++ path ++ codes ": " ++ exn_str e]
       | Some e' =>
           fst (fix_file uni_alnum path w) = inl e' /\
           stdout (snd (fix_file uni_alnum path w)) = stdout w
       end))) /\
  (forall e,
     read_text (disk w) path = inl e ->
     writes (snd (fix_file uni_alnum path w)) = writes w /\
     disk (snd (fix_file uni_alnum path w)) = disk w /\
     match
       stdout_write
         (codes "Error processing " ++ path ++ codes ": " ++ exn_str e)
     with
     | None => fst (fix_file uni_alnum path w) = inr 0
     | Some e' => fst (fix_file uni_alnum path w) = inl e'
     end) /\
  (forall n,
     fst (fix_file uni_alnum path w) = inr n -> n <> 0 ->
     exists t',
       read_text (disk w) path = inr t' /\
       n = snd (fix_content uni_alnum t') /\
       snd (write_text (disk w) path (fst (fix_content uni_alnum t'))) =
       None /\
       writes (snd (fix_file uni_alnum path w)) =
       writes w ++ [(path, fst (fix_content uni_alnum t'))]).
Proof.
  pose proof (fix_content_count_change uni_alnum t) as CC.
  conj.
  - exact CC.
  - intros H. split; intros Z.
    { apply (fix_file_same uni_alnum path w t H).
      destruct (list_eq_dec N.eq_dec (fst (fix_content uni_alnum t)) t)
        as [E|E]; [exact E|]. now apply CC in E. }
    apply CC in Z.
    rewrite (fix_file_changed uni_alnum path w t H Z).
    destruct (write_text (disk w) path (fst (fix_content uni_alnum t)))
      as [d [e|]]; cbn [fst snd].
    + conj.
      * destruct (stdout_write (error_line path e)); reflexivity.
      * destruct (stdout_write (error_line path e)); reflexivity.
      * discriminate.
      * intros x X. injection X as <-. unfold error_line.
        destruct (stdout_write _); now split.
    + conj; try reflexivity; [intros _; now split|discriminate].
  - intros e H. rewrite (fix_file_read_error uni_alnum path w e H).
    unfold error_line. destruct (stdout_write _); now conj.
  - intros n Hn Nz.
    destruct (fix_file_outcome uni_alnum path w)
      as [(e & R & E)|[(t' & R & _ & E)|(t' & d & r & R & N & W & E)]];
      rewrite E in Hn |- *.
    + destruct (stdout_write (error_line path e));
        cbn [fst] in Hn; [discriminate|].
      injection Hn as <-. now destruct Nz.
    + cbn [fst] in Hn. injection Hn as <-. now destruct Nz.
    + exists t'. rewrite W. destruct r as [e|].
      * destruct (stdout_write (error_line path e));
          cbn [fst] in Hn; [discriminate|].
        injection Hn as <-. now destruct Nz.
      * cbn [fst snd writes] in Hn |- *. injection Hn as <-. now conj.
Qed.

Lemma count_iff_changed_witness :
  (Mem.read Mem.sample (codes "src/a.ts") = inr (codes "const userId = 1;") /\
   snd (fix_content no_unicode (codes "const userId = 1;")) <> 0 /\
   snd (Mem.write Mem.sample (codes "src/a.ts")
          (fst (fix_content no_unicode (codes "const userId = 1;")))) = None)
  /\
  fst (@fix_file Mem.platform no_unicode (codes "src/a.ts") Mem.start) =
  inr (snd (fix_content no_unicode (codes "const userId = 1;"))) /\
  writes (snd (@fix_file Mem.platform no_unicode (codes "src/a.ts")
                 Mem.start)) =
  [(codes "src/a.ts", codes "const user_id = 1;")].
Proof.
  assert (N : snd (fix_content no_unicode (codes "const userId = 1;")) <> 0)
    by (vm_compute; discriminate).
  pose proof (@count_iff_changed Mem.platform no_unicode
                (codes "src/a.ts") Mem.start (codes "const userId = 1;"))
    as (_ & H & _).
  destruct (H eq_refl) as (_ & H2).
  destruct (H2 N) as (W & _ & H3 & _).
  split; [split; [reflexivity|split; [exact N|reflexivity]]|].
  split; [exact (proj1 (H3 eq_refl))|exact W].
Defined.

(** * Further properties of the code *)

(** ** What a rewrite keeps *)

Section Kept.

Variable uni_alnum : char -> bool.

Section Observed.

(** An observation of a text made character by character. *)
Variable X : Type.
Variable f : char -> list X.

Lemma Rw_observed (r : rule) (nw pw : bool) (s o : text) (k : nat) :
  flat_map f (lit r) = flat_map f (repl r) ->
  Rw uni_alnum r nw pw s o k -> flat_map f o = flat_map f s.
Proof.
  intros H. induction 1 as [pw|pw c s o k M _ IH|pw rest o k M _ IH].
  - reflexivity.
  - simpl. now rewrite IH.
  - now rewrite !flat_map_app, IH, H.
Qed.

Lemma pass_observed (rs : list rule) (nw pw : bool) :
  (forall r, In r rs ->
     lit r <> [] /\ flat_map f (lit r) = flat_map f (repl r)) ->
  forall (s : text) (n : nat),
    flat_map f (fst (pass uni_alnum rs nw pw (s, n))) = flat_map f s.
Proof.
  induction rs as [|r rs IH]; intros H s n; [reflexivity|].
  rewrite pass_cons. cbn [fst snd]. rewrite IH.
  - destruct (H r (or_introl eq_refl)) as [Hn Hf].
    apply (Rw_observed r nw pw s _ _ Hf (scan_Rw uni_alnum r nw Hn pw s)).
  - intros r' Hr'. apply H. now right.
Qed.

End Observed.

Lemma capitals_app (a b : text) : capitals (a ++ b) = capitals a + capitals b.
Proof. unfold capitals. now rewrite filter_app, length_app. Qed.

Lemma snake_length (t : text) : length (snake t) = length t + capitals t.
Proof.
  induction t as [|c t IH]; [reflexivity|].
  change (snake (c :: t))
    with ((if is_upper c then [95%N; (c + 32)%N] else [c]) ++ snake t).
  unfold char in *. rewrite length_app, IH.
  unfold capitals. cbn [filter length].
  destruct (is_upper c); simpl; lia.
Qed.

Lemma Rw_capitals (r : rule) (nw pw : bool) (s o : text) (k : nat) :
  Rw uni_alnum r nw pw s o k ->
  capitals o + k * capitals (lit r) = capitals s + k * capitals (repl r).
Proof.
  induction 1 as [pw|pw c s o k M _ IH|pw rest o k M _ IH].
  - reflexivity.
  - change (c :: o) with ([c] ++ o). change (c :: s) with ([c] ++ s).
    rewrite !capitals_app. lia.
  - rewrite !capitals_app. lia.
Qed.

Lemma pass_capitals (rs : list rule) (nw pw : bool) :
  (forall r, In r rs ->
     lit r <> [] /\ capitals (repl r) = 0 /\ 1 <= capitals (lit r)) ->
  forall (s : text) (n : nat),
    capitals (fst (pass uni_alnum rs nw pw (s, n))) +
    snd (pass uni_alnum rs nw pw (s, n)) <= capitals s + n.
Proof.
  induction rs as [|r rs IH]; intros H s n; [simpl; lia|].
  rewrite pass_cons. cbn [fst snd].
  destruct (H r (or_introl eq_refl)) as (Hn & H0 & H1).
  pose proof (Rw_capitals r nw pw s _ _ (scan_Rw uni_alnum r nw Hn pw s)) as E.
  rewrite H0 in E.
  etransitivity; [apply IH; intros r' Hr'; apply H; now right|]. nia.
Qed.

Lemma RULES_snake :
  forallb (fun r => text_eqb (snake (lit r)) (snake (repl r))) RULES = true.
Proof. vm_compute. reflexivity. Qed.

Lemma RULES_capitals :
  forallb (fun r => (capitals (repl r) =? 0) && (1 <=? capitals (lit r)))
    RULES = true.
Proof. vm_compute. reflexivity. Qed.

Lemma RULES_nonempty (r : rule) : In r RULES -> lit r <> [].
Proof.
  intros H. apply rule_ok_lit.
  pose proof RULES_rule_ok as F. rewrite forallb_forall in F. now apply F.
Qed.

Lemma fix_content_snake (t : text) :
  snake (fst (fix_content uni_alnum t)) = snake t.
Proof.
  rewrite fix_content_pass. unfold snake. apply pass_observed.
  intros r Hr. split; [now apply RULES_nonempty|].
  pose proof RULES_snake as F. rewrite forallb_forall in F.
  apply text_eqb_eq, F, Hr.
Qed.

Lemma fix_content_capitals (t : text) :
  capitals (fst (fix_content uni_alnum t)) + snd (fix_content uni_alnum t)
  <= capitals t.
Proof.
  rewrite fix_content_pass.
  pose proof (pass_capitals RULES false false) as H.
  rewrite <- (Nat.add_0_r (capitals t)). apply H.
  intros r Hr. split; [now apply RULES_nonempty|].
  pose proof RULES_capitals as F. rewrite forallb_forall in F.
  specialize (F r Hr). apply andb_prop in F as [F0 F1].
  apply Nat.eqb_eq in F0. apply Nat.leb_le in F1. now split.
Qed.

End Kept.

(** X1.  The rewrite keeps the snake_case form of the text: all it ever does
    is to turn capital letters into an underscore and the small letter;
    every other character stays where it is. *)
Theorem snake_preserved (uni_alnum : char -> bool) (t : text) :
  snake (fst (fix_content uni_alnum t)) = snake t.
Proof. apply fix_content_snake. Qed.

(** X2.  Each replacement lowers at least one capital letter, and the text
    grows by one character for each capital letter lowered: the change count
    is at most the number of capital letters that went away. *)
Theorem capitals_accounting (uni_alnum : char -> bool) (t : text) :
  capitals (fst (fix_content uni_alnum t)) + snd (fix_content uni_alnum t)
  <= capitals t /\
  length (fst (fix_content uni_alnum t)) +
  capitals (fst (fix_content uni_alnum t)) = length t + capitals t.
Proof.
  split.
  - apply fix_content_capitals.
  - rewrite <- !snake_length. now rewrite fix_content_snake.
Qed.

(** X3.  A text without a capital letter (A to Z) is returned as it is, with
    change count 0. *)
Theorem no_capitals_unchanged (uni_alnum : char -> bool) (t : text) :
  capitals t = 0 -> fix_content uni_alnum t = (t, 0).
Proof.
  intros H.
  pose proof (fix_content_capitals uni_alnum t) as L.
  assert (Z : snd (fix_content uni_alnum t) = 0) by lia.
  rewrite (surjective_pairing (fix_content uni_alnum t)), Z. f_equal.
  destruct (list_eq_dec N.eq_dec (fst (fix_content uni_alnum t)) t)
    as [E|E]; [exact E|].
  apply fix_content_count_change in E. contradiction.
Qed.

Lemma no_capitals_unchanged_witness :
  capitals (codes "const user_id = order.order_id;") = 0 /\
  fix_content no_unicode (codes "const user_id = order.order_id;") =
  (codes "const user_id = order.order_id;", 0).
Proof.
  split; [reflexivity|].
  apply (no_capitals_unchanged no_unicode). reflexivity.
Defined.

(** X4.  The rewrite works piece by piece: at a character that is not a word
    character, a dot or a colon (a newline, a blank, a bracket) the text
    splits into two texts that are rewritten apart, and the counts add up. *)
Theorem rewrite_splits_at_separator (uni_alnum : char -> bool)
    (A B : text) (c : char) :
  is_word uni_alnum c = false -> c <> 46%N -> c <> 58%N ->
  fix_content uni_alnum (A ++ c :: B) =
  (fst (fix_content uni_alnum A) ++ c :: fst (fix_content uni_alnum B),
   snd (fix_content uni_alnum A) + snd (fix_content uni_alnum B)).
Proof.
  intros Hc Hd Hk.
  rewrite !fix_content_window.
  rewrite window_split
    by (apply (junction_free_right uni_alnum);
        [apply RULES_inner_right|exact Hc|exact Hk]).
  replace (head_word uni_alnum (c :: B) false) with false
    by (symmetry; exact Hc).
  rewrite (window_pw uni_alnum _ false false (c :: B) Hc).
  change (c :: B) with ([c] ++ B).
  rewrite (window_split uni_alnum false false [c] B)
    by (apply (junction_free_left uni_alnum);
        [apply RULES_inner_left|exact Hc|exact Hd]).
  rewrite window_single. cbn [fst snd].
  replace (last_word uni_alnum false [c]) with false by (symmetry; exact Hc).
  reflexivity.
Qed.

Lemma rewrite_splits_at_separator_witness :
  (is_word no_unicode 10%N = false /\ 10%N <> 46%N /\ 10%N <> 58%N) /\
  fix_content no_unicode (codes "a.userId;" ++ 10%N :: codes "orderId: 1") =
  (fst (fix_content no_unicode (codes "a.userId;")) ++
   10%N :: fst (fix_content no_unicode (codes "orderId: 1")),
   snd (fix_content no_unicode (codes "a.userId;")) +
   snd (fix_content no_unicode (codes "orderId: 1"))).
Proof.
  split; [repeat split; discriminate|].
  apply (rewrite_splits_at_separator no_unicode); [reflexivity| |];
    discriminate.
Defined.

(** ** What each table renames, in every context *)

Section Contexts.

Variable uni_alnum : char -> bool.

Local Abbreviation isw := (is_word uni_alnum).
Local Abbreviation hdw := (head_word uni_alnum).
Local Abbreviation lastw := (last_word uni_alnum).
Local Abbreviation window := (rewrite_window uni_alnum).
Local Abbreviation fixc := (fix_content uni_alnum).

(** A block [X] between two junctions that no match straddles, with the
    count [k] of its own. *)
Lemma block_between (X X' : text) (k : nat) (A B : text) (pw nw : bool)
    (T : text) :
  T = A ++ X ++ B ->
  junction_free RULES (last A 0%N) (hd 0%N (X ++ B)) = true ->
  junction_free RULES (last X 0%N) (hd 0%N B) = true ->
  hdw (X ++ B) false = nw ->
  lastw false A = pw ->
  window pw (hdw B false) X = (X', k) ->
  fixc T =
  (fst (window false nw A) ++ X' ++ fst (window (lastw pw X) false B),
   snd (window false nw A) + k + snd (window (lastw pw X) false B)).
Proof.
  intros -> J1 J2 Hn Hp HX.
  rewrite fix_content_window, window_split by exact J1.
  rewrite Hn, Hp, window_split by exact J2.
  rewrite HX. cbn [fst snd]. now rewrite Nat.add_assoc.
Qed.

Lemma last_word_of_last (pw : bool) (X : text) (b : bool) :
  X <> [] -> isw (last X 0%N) = b -> lastw pw X = b.
Proof. intros H E. now rewrite last_word_last. Qed.

Lemma hd_dot_nonempty (X : text) : hd 0%N X = 46%N -> X <> [].
Proof. intros H ->. discriminate. Qed.

Lemma last_colon_nonempty (X : text) : last X 0%N = 58%N -> X <> [].
Proof. intros H ->. discriminate. Qed.

Section Dotted.

(** [X] starts with a dot and ends with a word character; the rewrite
    turns it into [X'], also before a colon. *)
Variables X X' : text.
Hypothesis X_dot : hd 0%N X = 46%N.
Hypothesis X_last : isw (last X 0%N) = true.
Hypothesis X_alone : forall pw, window pw false X = (X', 1).
Hypothesis X_key :
  forall pw nw, window pw nw (X ++ [58%N]) = (X' ++ [58%N], 1).

Lemma dotted_in_context (A B : text) :
  isw (hd 0%N B) = false ->
  fixc (A ++ X ++ B) =
  (fst (fixc A) ++ X' ++ fst (fixc B), snd (fixc A) + 1 + snd (fixc B)).
Proof.
  intros HB. pose proof (hd_dot_nonempty X X_dot) as Xn.
  assert (Hhd : forall Y, hd 0%N (X ++ Y) = 46%N)
    by (intros Y; destruct X; [congruence|exact X_dot]).
  assert (Hw : forall Y, hdw (X ++ Y) false = false).
  { intros Y. destruct X as [|x X0]; [congruence|].
    simpl in X_dot. subst x. reflexivity. }
  destruct (N.eq_dec (hd 0%N B) 58) as [Bc|Bc].
  - destruct B as [|b B1]; [discriminate|]. simpl in Bc. subst b.
    rewrite split_after_colon. cbn [fst snd].
    etransitivity.
    { apply (block_between (X ++ [58%N]) (X' ++ [58%N]) 1 A B1
               (lastw false A) false).
      - now rewrite <- !app_assoc.
      - rewrite <- app_assoc, Hhd.
        apply junction_free_absent_right, RULES_dot_first.
      - rewrite last_last. apply junction_free_absent_left, RULES_colon_last.
      - rewrite <- app_assoc. apply Hw.
      - reflexivity.
      - apply X_key. }
    rewrite <- !fix_content_window.
    replace (lastw (lastw false A) (X ++ [58%N])) with false
      by now rewrite last_word_snoc.
    rewrite <- fix_content_window.
    apply f_equal2; [|reflexivity]. now rewrite <- !app_assoc.
  - etransitivity.
    { apply (block_between X X' 1 A B (lastw false A) false).
      - reflexivity.
      - rewrite Hhd. apply junction_free_absent_right, RULES_dot_first.
      - apply (junction_free_right uni_alnum);
          [apply RULES_inner_right|exact HB|exact Bc].
      - apply Hw.
      - reflexivity.
      - rewrite (head_word_false uni_alnum B HB). apply X_alone. }
    rewrite <- !fix_content_window.
    rewrite (last_word_of_last _ X true Xn X_last).
    rewrite (window_pw uni_alnum true false false B HB).
    now rewrite <- fix_content_window.
Qed.

End Dotted.

Section Keyed.

(** [X] starts with a word character and ends with a colon; the rewrite
    turns it into [X'], also after a dot. *)
Variables X X' : text.
Hypothesis X_colon : last X 0%N = 58%N.
Hypothesis X_first : isw (hd 0%N X) = true.
Hypothesis X_alone : forall nw, window false nw X = (X', 1).
Hypothesis X_member :
  forall pw nw, window pw nw (46%N :: X) = (46%N :: X', 1).

Lemma keyed_in_context (A B : text) :
  isw (last A 0%N) = false ->
  fixc (A ++ X ++ B) =
  (fst (fixc A) ++ X' ++ fst (fixc B), snd (fixc A) + 1 + snd (fixc B)).
Proof.
  intros HA. pose proof (last_colon_nonempty X X_colon) as Xn.
  assert (Hl : forall pw, lastw pw X = false).
  { intros pw. apply (last_word_of_last pw X false Xn).
    now rewrite X_colon. }
  destruct (N.eq_dec (last A 0%N) 46) as [Ad|Ad].
  - destruct (@exists_last _ A) as (A1 & a & ->);
      [intros ->; discriminate|].
    rewrite last_last in Ad. subst a.
    rewrite fix_snoc_dot. cbn [fst snd].
    etransitivity.
    { apply (block_between (46%N :: X) (46%N :: X') 1 A1 B
               (lastw false A1) false).
      - now rewrite <- !app_assoc.
      - apply junction_free_absent_right, RULES_dot_first.
      - assert (E : last (46%N :: X) 0%N = 58%N)
          by (destruct X; [congruence|exact X_colon]).
        unfold char in *. rewrite E.
        apply junction_free_absent_left, RULES_colon_last.
      - reflexivity.
      - reflexivity.
      - apply X_member. }
    rewrite <- !fix_content_window.
    replace (lastw (lastw false A1) (46%N :: X)) with false
      by (symmetry; apply (Hl false)).
    rewrite <- fix_content_window.
    apply f_equal2; [|reflexivity]. now rewrite <- !app_assoc.
  - etransitivity.
    { apply (block_between X X' 1 A B false true).
      - reflexivity.
      - apply (junction_free_left uni_alnum);
          [apply RULES_inner_left|exact HA|exact Ad].
      - rewrite X_colon. apply junction_free_absent_left, RULES_colon_last.
      - destruct X; [congruence|exact X_first].
      - now apply last_word_false.
      - apply X_alone. }
    rewrite (window_nw uni_alnum false true false A HA).
    rewrite <- !fix_content_window.
    rewrite (Hl false). now rewrite <- fix_content_window.
Qed.

End Keyed.

Section Untouched.

(** [W] is a word the rewrite leaves alone when it stands on its own. *)
Variable W : text.
Hypothesis W_nonempty : W <> [].
Hypothesis W_first : isw (hd 0%N W) = true.
Hypothesis W_last : isw (last W 0%N) = true.
Hypothesis W_bare : window false false W = (W, 0).

Lemma untouched_in_context (A B : text) :
  isw (last A 0%N) = false -> last A 0%N <> 46%N ->
  isw (hd 0%N B) = false -> hd 0%N B <> 58%N ->
  fixc (A ++ W ++ B) =
  (fst (fixc A) ++ W ++ fst (fixc B), snd (fixc A) + snd (fixc B)).
Proof.
  intros HA Ad HB Bc.
  etransitivity.
  { apply (block_between W W 0 A B false true).
    - reflexivity.
    - apply (junction_free_left uni_alnum);
        [apply RULES_inner_left|exact HA|exact Ad].
    - apply (junction_free_right uni_alnum);
        [apply RULES_inner_right|exact HB|exact Bc].
    - destruct W; [congruence|exact W_first].
    - now apply last_word_false.
    - rewrite (head_word_false uni_alnum B HB). exact W_bare. }
  rewrite (window_nw uni_alnum false true false A HA).
  rewrite <- !fix_content_window.
  rewrite (last_word_of_last _ W true W_nonempty W_last).
  rewrite (window_pw uni_alnum true false false B HB).
  rewrite <- fix_content_window. now rewrite Nat.add_0_r.
Qed.

End Untouched.

End Contexts.

(** X5.  Member access: for every entry of [PROPERTY_PATTERNS], the text
    its pattern matches (the dot and the name), wherever it stands before a
    character that is not a word character or at the end of the text, is
    replaced by the entry's replacement; the text before and the text after
    are rewritten apart. *)
Theorem member_access_renamed (uni_alnum : char -> bool)
    (pr : string * string) (A B : text) :
  In pr PROPERTY_PATTERNS ->
  is_word uni_alnum (hd 0%N B) = false ->
  fix_content uni_alnum (A ++ literal (re_compile (fst pr)) ++ B) =
  (fst (fix_content uni_alnum A) ++ codes (snd pr) ++
   fst (fix_content uni_alnum B),
   snd (fix_content uni_alnum A) + 1 + snd (fix_content uni_alnum B)).
Proof.
  intros H. unfold PROPERTY_PATTERNS in H.
  repeat (destruct H as [<-|H];
          [apply dotted_in_context;
           [reflexivity|reflexivity
           |intros []; vm_compute; reflexivity
           |intros [] []; vm_compute; reflexivity]|]).
  destruct H.
Qed.

Lemma member_access_renamed_witness :
  (In ("\.createdAt\b", ".created_at")%string PROPERTY_PATTERNS /\
   is_word no_unicode (hd 0%N (codes ";")) = false) /\
  fix_content no_unicode
    (codes "row" ++ literal (re_compile "\.createdAt\b") ++ codes ";") =
  (fst (fix_content no_unicode (codes "row")) ++ codes ".created_at" ++
   fst (fix_content no_unicode (codes ";")),
   snd (fix_content no_unicode (codes "row")) + 1 +
   snd (fix_content no_unicode (codes ";"))).
Proof.
  assert (I : In ("\.createdAt\b", ".created_at")%string PROPERTY_PATTERNS)
    by (unfold PROPERTY_PATTERNS; simpl; tauto).
  split; [split; [exact I|reflexivity]|].
  apply (member_access_renamed no_unicode _ (codes "row") (codes ";") I).
  reflexivity.
Defined.

(** X6.  Object keys: for every entry of [OBJECT_PATTERNS], the text its
    pattern matches (the name and the colon), wherever it stands after a
    character that is not a word character or at the start of the text, is
    replaced by the entry's replacement. *)
Theorem object_key_renamed (uni_alnum : char -> bool)
    (pr : string * string) (A B : text) :
  In pr OBJECT_PATTERNS ->
  is_word uni_alnum (last A 0%N) = false ->
  fix_content uni_alnum (A ++ literal (re_compile (fst pr)) ++ B) =
  (fst (fix_content uni_alnum A) ++ codes (snd pr) ++
   fst (fix_content uni_alnum B),
   snd (fix_content uni_alnum A) + 1 + snd (fix_content uni_alnum B)).
Proof.
  intros H. unfold OBJECT_PATTERNS in H.
  repeat (destruct H as [<-|H];
          [apply keyed_in_context;
           [reflexivity|reflexivity
           |intros []; vm_compute; reflexivity
           |intros [] []; vm_compute; reflexivity]|]).
  destruct H.
Qed.

Lemma object_key_renamed_witness :
  (In ("\bisActive:", "is_active:")%string OBJECT_PATTERNS /\
   is_word no_unicode (last (codes "{ ") 0%N) = false) /\
  fix_content no_unicode
    (codes "{ " ++ literal (re_compile "\bisActive:") ++ codes " true }") =
  (fst (fix_content no_unicode (codes "{ ")) ++ codes "is_active:" ++
   fst (fix_content no_unicode (codes " true }")),
   snd (fix_content no_unicode (codes "{ ")) + 1 +
   snd (fix_content no_unicode (codes " true }"))).
Proof.
  assert (I : In ("\bisActive:", "is_active:")%string OBJECT_PATTERNS)
    by (unfold OBJECT_PATTERNS; simpl; tauto).
  split; [split; [exact I|reflexivity]|].
  apply (object_key_renamed no_unicode _ (codes "{ ") (codes " true }") I).
  reflexivity.
Defined.

(** X7.  Variables: for every entry of [VARIABLE_PATTERNS], the name,
    wherever it stands as a word of its own (its neighbours are not word
    characters), is replaced by the entry's replacement. *)
Theorem variable_renamed (uni_alnum : char -> bool)
    (pr : string * string) (A B : text) :
  In pr VARIABLE_PATTERNS ->
  is_word uni_alnum (last A 0%N) = false ->
  is_word uni_alnum (hd 0%N B) = false ->
  fix_content uni_alnum (A ++ literal (re_compile (fst pr)) ++ B) =
  (fst (fix_content uni_alnum A) ++ codes (snd pr) ++
   fst (fix_content uni_alnum B),
   snd (fix_content uni_alnum A) + 1 + snd (fix_content uni_alnum B)).
Proof.
  intros H. unfold VARIABLE_PATTERNS in H.
  repeat (destruct H as [<-|H];
          [apply word_in_context;
           [reflexivity|reflexivity|discriminate|reflexivity
           |intros []; vm_compute; reflexivity
           |intros []; vm_compute; reflexivity
           |intros [] []; vm_compute; reflexivity]|]).
  destruct H.
Qed.

Lemma variable_renamed_witness :
  (In ("\btotalQty\b", "total_qty")%string VARIABLE_PATTERNS /\
   is_word no_unicode (last (codes "sum(") 0%N) = false /\
   is_word no_unicode (hd 0%N (codes ")")) = false) /\
  fix_content no_unicode
    (codes "sum(" ++ literal (re_compile "\btotalQty\b") ++ codes ")") =
  (fst (fix_content no_unicode (codes "sum(")) ++ codes "total_qty" ++
   fst (fix_content no_unicode (codes ")")),
   snd (fix_content no_unicode (codes "sum(")) + 1 +
   snd (fix_content no_unicode (codes ")"))).
Proof.
  assert (I : In ("\btotalQty\b", "total_qty")%string VARIABLE_PATTERNS)
    by (unfold VARIABLE_PATTERNS; simpl; tauto).
  split; [split; [exact I|split; reflexivity]|].
  apply (variable_renamed no_unicode _ (codes "sum(") (codes ")") I);
    reflexivity.
Defined.

(** X8.  The names [createdAt], [updatedAt], [poNumber], [isActive],
    [isDefault], [routingSteps] and [designAssets] are renamed after a dot
    and as a key only: standing as a word of its own, not after a dot and not
    before a colon, such a name is left as it is. *)
Theorem bare_name_not_renamed (uni_alnum : char -> bool)
    (name : string) (A B : text) :
  In name NOT_VARIABLE ->
  is_word uni_alnum (last A 0%N) = false -> last A 0%N <> 46%N ->
  is_word uni_alnum (hd 0%N B) = false -> hd 0%N B <> 58%N ->
  fix_content uni_alnum (A ++ codes name ++ B) =
  (fst (fix_content uni_alnum A) ++ codes name ++
   fst (fix_content uni_alnum B),
   snd (fix_content uni_alnum A) + snd (fix_content uni_alnum B)).
Proof.
  intros H. unfold NOT_VARIABLE in H.
  repeat (destruct H as [<-|H];
          [apply untouched_in_context;
           [discriminate|reflexivity|reflexivity
           |vm_compute; reflexivity]|]).
  destruct H.
Qed.

Lemma bare_name_not_renamed_witness :
  (In "createdAt"%string NOT_VARIABLE /\
   is_word no_unicode (last (codes "const ") 0%N) = false /\
   last (codes "const ") 0%N <> 46%N /\
   is_word no_unicode (hd 0%N (codes " = row.createdAt;")) = false /\
   hd 0%N (codes " = row.createdAt;") <> 58%N) /\
  fix_content no_unicode
    (codes "const " ++ codes "createdAt" ++ codes " = row.createdAt;") =
  (codes "const createdAt = row.created_at;", 1).
Proof.
  assert (I : In "createdAt"%string NOT_VARIABLE)
    by (unfold NOT_VARIABLE; simpl; tauto).
  split;
    [split; [exact I|repeat split; try reflexivity; discriminate]|].
  rewrite (bare_name_not_renamed no_unicode _ (codes "const ")
             (codes " = row.createdAt;") I);
    try reflexivity; discriminate.
Defined.

(** ** The mapping table and the pattern tables *)

Section Mapping.

(** The lookup in a list of items, as [mapping_get] does it. *)
Definition items_get (items : list (string * string)) (found : option text)
    (key : text) : option text :=
  fold_left
    (fun (found : option text) (kv : string * string) =>
       if text_eqb (codes (fst kv)) key then Some (codes (snd kv)) else found)
    items found.

Lemma items_get_missing (items : list (string * string)) (key : text) :
  forall found,
    (forall kv, In kv items -> codes (fst kv) <> key) ->
    items_get items found key = found.
Proof.
  induction items as [|kv items IH]; intros found H; [reflexivity|].
  unfold items_get. cbn [fold_left]. fold (items_get items).
  destruct (text_eqb (codes (fst kv)) key) eqn:E.
  - apply text_eqb_eq in E. now destruct (H kv (or_introl eq_refl)).
  - apply IH. intros kv' Hkv'. apply H. now right.
Qed.

Definition entry_ok (kv : string * string) : bool :=
  text_eqb (codes (snd kv)) (snake (codes (fst kv))) &&
  match mapping_get (codes (fst kv)) with
  | Some v => text_eqb v (codes (snd kv))
  | None => false
  end.

Lemma FIELD_MAPPINGS_entries : forallb entry_ok FIELD_MAPPINGS = true.
Proof. vm_compute. reflexivity. Qed.

Lemma FIELD_MAPPINGS_get (k v : string) :
  In (k, v) FIELD_MAPPINGS ->
  codes v = snake (codes k) /\ mapping_get (codes k) = Some (codes v).
Proof.
  intros H. pose proof FIELD_MAPPINGS_entries as F.
  rewrite forallb_forall in F. specialize (F (k, v) H).
  unfold entry_ok in F. cbn [fst snd] in F.
  apply andb_prop in F as [F1 F2]. apply text_eqb_eq in F1.
  split; [exact F1|].
  destruct (mapping_get (codes k)) as [x|]; [|discriminate].
  apply text_eqb_eq in F2. now subst.
Qed.

(** The three shapes of an entry of the pattern tables for the item
    [(key, value)]: after a dot, before a colon, on its own. *)
Definition follows (pr kv : string * string) : bool :=
  let l := literal (re_compile (fst pr)) in
  let r := codes (snd pr) in
  let k := codes (fst kv) in
  let v := codes (snd kv) in
  text_eqb l (46%N :: k) && text_eqb r (46%N :: v) ||
  text_eqb l (k ++ [58%N]) && text_eqb r (v ++ [58%N]) ||
  text_eqb l k && text_eqb r v.

Lemma ALL_PATTERNS_follow :
  forallb (fun pr => existsb (follows pr) FIELD_MAPPINGS) ALL_PATTERNS = true.
Proof. vm_compute. reflexivity. Qed.

End Mapping.

(** X9.  [FIELD_MAPPINGS] is a function from camelCase to snake_case: the
    value of every item is the snake_case form of its key, looking the key
    up gives that value (no later item overrides it), and a key that is not
    listed gives nothing. *)
Theorem mapping_is_snake_case (key : text) :
  (forall k v,
     In (k, v) FIELD_MAPPINGS ->
     codes v = snake (codes k) /\ mapping_get (codes k) = Some (codes v)) /\
  ((forall kv, In kv FIELD_MAPPINGS -> codes (fst kv) <> key) ->
   mapping_get key = None).
Proof.
  split.
  - apply FIELD_MAPPINGS_get.
  - apply (items_get_missing FIELD_MAPPINGS key None).
Qed.

Lemma mapping_is_snake_case_witness :
  (In ("poNumber", "po_number")%string FIELD_MAPPINGS /\
   (forall kv, In kv FIELD_MAPPINGS -> codes (fst kv) <> codes "po_number"))
  /\
  (codes "po_number" = snake (codes "poNumber") /\
   mapping_get (codes "poNumber") = Some (codes "po_number")) /\
  mapping_get (codes "po_number") = None.
Proof.
  assert (I : In ("poNumber", "po_number")%string FIELD_MAPPINGS)
    by (unfold FIELD_MAPPINGS; simpl; tauto).
  assert (M : forall kv, In kv FIELD_MAPPINGS ->
                codes (fst kv) <> codes "po_number").
  { intros kv H. unfold FIELD_MAPPINGS in H.
    repeat (destruct H as [<-|H]; [discriminate|]). destruct H. }
  split; [split; [exact I|exact M]|].
  split.
  - exact (proj1 (mapping_is_snake_case []) _ _ I).
  - exact (proj2 (mapping_is_snake_case (codes "po_number")) M).
Defined.

(** X10.  The pattern tables follow the mapping table: every entry of the
    three tables matches a key of [FIELD_MAPPINGS] (after a dot, before a
    colon, or on its own) and replaces it by the value the table gives for
    that key. *)
Theorem patterns_follow_mapping (pr : string * string) :
  In pr ALL_PATTERNS ->
  exists key value,
    In (key, value) FIELD_MAPPINGS /\
    mapping_get (codes key) = Some (codes value) /\
    (literal (re_compile (fst pr)) = 46%N :: codes key /\
     codes (snd pr) = 46%N :: codes value \/
     literal (re_compile (fst pr)) = codes key ++ [58%N] /\
     codes (snd pr) = codes value ++ [58%N] \/
     literal (re_compile (fst pr)) = codes key /\
     codes (snd pr) = codes value).
Proof.
  intros H. pose proof ALL_PATTERNS_follow as F.
  rewrite forallb_forall in F. specialize (F pr H).
  apply existsb_exists in F as ([key value] & Hkv & Hf).
  exists key, value. split; [exact Hkv|]. split.
  - exact (proj2 (FIELD_MAPPINGS_get key value Hkv)).
  - unfold follows in Hf. cbn [fst snd] in Hf. cbv zeta in Hf.
    rewrite !orb_true_iff, !andb_true_iff, !text_eqb_eq in Hf.
    tauto.
Qed.

Lemma patterns_follow_mapping_witness :
  In ("\bstandardSpec:", "standard_spec:")%string ALL_PATTERNS /\
  exists key value,
    In (key, value) FIELD_MAPPINGS /\
    mapping_get (codes key) = Some (codes value) /\
    (literal (re_compile "\bstandardSpec:") = 46%N :: codes key /\
     codes "standard_spec:" = 46%N :: codes value \/
     literal (re_compile "\bstandardSpec:") = codes key ++ [58%N] /\
     codes "standard_spec:" = codes value ++ [58%N] \/
     literal (re_compile "\bstandardSpec:") = codes key /\
     codes "standard_spec:" = codes value).
Proof.
  assert (I : In ("\bstandardSpec:", "standard_spec:")%string ALL_PATTERNS)
    by (vm_compute; tauto).
  split; [exact I|].
  exact (patterns_follow_mapping _ I).
Defined.

(** X11.  A call of [fix_file] requests at most one write: either nothing is
    written and the file system is the one before, or the file was read, its
    rewritten content differs, and the one write is of that content to the
    path given. *)
Theorem fix_file_writes_own_file {P : Platform} (uni_alnum : char -> bool)
    (path : text) (w : world) :
  writes (snd (fix_file uni_alnum path w)) = writes w /\
  disk (snd (fix_file uni_alnum path w)) = disk w \/
  exists t,
    read_text (disk w) path = inr t /\
    fst (fix_content uni_alnum t) <> t /\
    writes (snd (fix_file uni_alnum path w)) =
    writes w ++ [(path, fst (fix_content uni_alnum t))] /\
    disk (snd (fix_file uni_alnum path w)) =
    fst (write_text (disk w) path (fst (fix_content uni_alnum t))).
Proof.
  destruct (fix_file_outcome uni_alnum path w)
    as [(e & _ & E)|[(t & _ & _ & E)|(t & d & r & R & N & W & E)]];
    rewrite E.
  - left. destruct (stdout_write (error_line path e)); now split.
  - left. now split.
  - right. exists t. rewrite W.
    destruct r as [e|]; [destruct (stdout_write (error_line path e))|];
      now conj.
Qed.

(** X12.  Every write of a run of [main] goes to a file of the walk whose
    name ends in [.ts] or [.tsx], and there is at most one write for each
    such file; nothing else is written. *)
Theorem main_writes_only_sources {P : Platform} (uni_alnum : char -> bool)
    (w : world) :
  exists ws,
    writes (snd (main uni_alnum w)) = writes w ++ ws /\
    length ws <= length (candidates (os_walk (disk w) src_dir)) /\
    forall path content,
      In (path, content) ws ->
      exists root dirs files file,
        In (root, dirs, files) (os_walk (disk w) src_dir) /\
        In file files /\
        ((exists stem, file = stem ++ codes ".ts") \/
         (exists stem, file = stem ++ codes ".tsx")) /\
        path = path_join root file.
Proof.
  destruct (drive_trace uni_alnum (candidates (os_walk (disk w) src_dir))
              (0, 0) w)
    as (r & w' & ws & out & E & Ew & _ & Hp & Lw & _).
  exists ws. split; [|split; [exact Lw|]].
  - rewrite main_cases, walk_loop_drive, E.
    destruct r as [e|[tc fc]]; exact Ew.
  - intros path content H. specialize (Hp _ H). cbn [fst] in Hp.
    apply candidates_spec in Hp
      as (root & dirs & files & file & H1 & H2 & H3 & H4).
    exists root, dirs, files, file. now rewrite <- is_source_file_spec.
Qed.



(** X14.  Running [fix_file] again on the file it has just processed
    changes nothing, when the platform gives back what was written: the
    second call returns 0 and leaves the world as the first call left it. *)
Theorem fix_file_twice {P : Platform} (uni_alnum : char -> bool)
    (path : text) (w : world) (t : text) :
  read_text (disk w) path = inr t ->
  read_text (disk (snd (fix_file uni_alnum path w))) path =
  inr (fst (fix_content uni_alnum t)) ->
  fix_file uni_alnum path (snd (fix_file uni_alnum path w)) =
  (inr 0, snd (fix_file uni_alnum path w)).
Proof.
  intros _ R. apply (fix_file_same uni_alnum path _ _ R).
  rewrite (fix_content_pass uni_alnum (fst (fix_content uni_alnum t))).
  rewrite (fix_content_pass uni_alnum t).
  apply (fst_of_eq _ _ 0).
  apply (pass_idempotent uni_alnum RULES (RULES_ok uni_alnum)
           false false t 0 0).
Qed.

Lemma fix_file_twice_witness :
  (Mem.read Mem.sample (codes "src/a.ts") = inr (codes "const userId = 1;") /\
   Mem.read
     (disk (snd (@fix_file Mem.platform no_unicode (codes "src/a.ts")
                   Mem.start)))
     (codes "src/a.ts") =
   inr (fst (fix_content no_unicode (codes "const userId = 1;")))) /\
  fst (@fix_file Mem.platform no_unicode (codes "src/a.ts") Mem.start) =
  inr 1 /\
  @fix_file Mem.platform no_unicode (codes "src/a.ts")
    (snd (@fix_file Mem.platform no_unicode (codes "src/a.ts") Mem.start)) =
  (inr 0, snd (@fix_file Mem.platform no_unicode (codes "src/a.ts")
                 Mem.start)).
Proof.
  split; [split; reflexivity|]. split; [reflexivity|].
  apply (@fix_file_twice Mem.platform no_unicode (codes "src/a.ts")
           Mem.start (codes "const userId = 1;")); reflexivity.
Defined.


